(** * Retrieval core of the RAG chatbot: chunker, similarity engine,
      keyword fallback engine, conversation store and orchestrator.

    Shallow embedding of [backend/app/rag_service.py],
    [backend/app/embeddings.py] and [backend/app/conversation_store.py].

    Conventions of the model.
    - A Python [str] is a list of characters; a character is a code point
      below 256 (Rocq's [ascii]), with Python's own notion of white space
      and of lower-casing on that range.
    - A Python [int] argument is a [Z]; a length or a counter that only
      grows from zero is a [nat].
    - A float score is a rational.  The dot-product-over-norms kernel of the
      similarity engine is a parameter of the model: the engine only
      compares, sorts and returns the scores it yields.
    - The embedding model and the generation API are collaborators: they are
      passed in as functions returning [None] when the Python call raises. *)

From stdpp Require Import gmap strings list.
From Stdlib Require Import ZArith QArith Ascii String List Lia Sorted Permutation.
From Stdlib Require Import DecimalString.
Import ListNotations.

Local Open Scope nat_scope.

(** A Python string. *)
Abbreviation str := (list ascii).

(** String literals of the source. *)
Definition s (x : string) : str := list_ascii_of_string x.

(* ===================================================================== *)
(** ** Python list slicing *)
(* ===================================================================== *)

Module PySlice.

(** [l[:k]]: a negative bound counts from the end. *)
Definition slice_to {A} (l : list A) (k : Z) : list A :=
  if (k <? 0)%Z
  then firstn (Z.to_nat (Z.of_nat (length l) + k)) l
  else firstn (Z.to_nat k) l.

(** [l[k:]]: a negative bound counts from the end. *)
Definition slice_from {A} (l : list A) (k : Z) : list A :=
  if (k <? 0)%Z
  then skipn (Z.to_nat (Z.of_nat (length l) + k)) l
  else skipn (Z.to_nat k) l.

End PySlice.

(* ===================================================================== *)
(** ** Python string primitives used by the source *)
(* ===================================================================== *)

Module PyStr.

(** [str.isspace] on code points below 256: tab, line feed, vertical tab,
    form feed, carriage return, the four separators 28..31, space,
    NEL (133) and the no-break space (160). *)
Definition isspace (c : ascii) : bool :=
  let n := nat_of_ascii c in
  ((9 <=? n) && (n <=? 13)) || ((28 <=? n) && (n <=? 32))
  || (n =? 133) || (n =? 160).

(** [str.lower] on one code point below 256: A..Z and the Latin-1 capitals
    192..222 (the multiplication sign 215 apart) move up by 32. *)
Definition lower_char (c : ascii) : ascii :=
  let n := nat_of_ascii c in
  if ((65 <=? n) && (n <=? 90))
     || ((192 <=? n) && (n <=? 222) && negb (n =? 215))
  then ascii_of_nat (n + 32) else c.

Definition lower (x : str) : str := map lower_char x.

Fixpoint lstrip (x : str) : str :=
  match x with
  | [] => []
  | c :: x' => if isspace c then lstrip x' else x
  end.

Definition rstrip (x : str) : str := rev (lstrip (rev x)).

(** [x.strip()] *)
Definition strip (x : str) : str := lstrip (rstrip x).

Definition char_eqb (a b : ascii) : bool := Ascii.eqb a b.

Fixpoint str_eqb (x y : str) : bool :=
  match x, y with
  | [], [] => true
  | a :: x', b :: y' => char_eqb a b && str_eqb x' y'
  | _, _ => false
  end.

(** [y.startswith(x)] *)
Fixpoint startswith (x y : str) : bool :=
  match x, y with
  | [], _ => true
  | a :: x', b :: y' => char_eqb a b && startswith x' y'
  | _ :: _, [] => false
  end.

(** [x in y] on strings: [x] occurs in [y] as a substring. *)
Fixpoint contains (x y : str) : bool :=
  startswith x y ||
  match y with
  | [] => false
  | _ :: y' => contains x y'
  end.

(** Put a character in front of the first piece. *)
Definition cons_head (c : ascii) (ps : list str) : list str :=
  match ps with
  | [] => [[c]]
  | p :: ps' => (c :: p) :: ps'
  end.

(** [x.split(sep)] for a non-empty [sep]: the pieces between the
    occurrences of [sep] found from left to right, without overlap.
    [skip] counts the characters of a separator just matched that are
    still to be passed over. *)
Fixpoint split_go (sep : str) (skip : nat) (x : str) : list str :=
  match x with
  | [] => [[]]
  | c :: x' =>
      match skip with
      | S k => split_go sep k x'
      | O =>
          if startswith sep x
          then [] :: split_go sep (length sep - 1) x'
          else cons_head c (split_go sep 0 x')
      end
  end.

Definition split_sep (sep x : str) : list str := split_go sep 0 x.

(** [x.split()]: the maximal runs of characters that are not white space.
    [cur] is the word being read, reversed. *)
Fixpoint split_ws_go (cur : str) (x : str) : list str :=
  match x with
  | [] => match cur with [] => [] | _ => [rev cur] end
  | c :: x' =>
      if isspace c
      then match cur with
           | [] => split_ws_go [] x'
           | _ => rev cur :: split_ws_go [] x'
           end
      else split_ws_go (c :: cur) x'
  end.

Definition split (x : str) : list str := split_ws_go [] x.

(** [sep.join(ps)] *)
Fixpoint join (sep : str) (ps : list str) : str :=
  match ps with
  | [] => []
  | [p] => p
  | p :: ps' => p ++ sep ++ join sep ps'
  end.

(** [bool(x)] for a string or a list: non-empty. *)
Definition truthy {A} (l : list A) : bool :=
  match l with [] => false | _ => true end.

(** [str(n)] for a non-negative integer. *)
Definition of_nat (n : nat) : str :=
  list_ascii_of_string (NilZero.string_of_uint (Nat.to_uint n)).

(** [set(ws)] as a duplicate-free list (first occurrences kept). *)
Fixpoint dedup (ws : list str) : list str :=
  match ws with
  | [] => []
  | w :: ws' =>
      w :: List.filter (fun v => negb (str_eqb w v)) (dedup ws')
  end.

End PyStr.

(* ===================================================================== *)
(** ** The chunker: [chunk_text_smart]  (rag_service.py) *)
(* ===================================================================== *)

Module Chunker.
Import PyStr PySlice.

Definition para_sep : str := s (String "010" (String "010" EmptyString)).
Definition sentence_sep : str := s ". ".

(** [[p.strip() for p in text.split("\n\n") if p.strip()]] *)
Definition paragraphs (text : str) : list str :=
  List.filter truthy (map strip (split_sep para_sep text)).

Definition len (x : str) : Z := Z.of_nat (length x).

(** One turn of the inner loop over the sentences of a large paragraph;
    the state is [(chunks, temp_chunk)]. *)
Definition add_sentence (chunk_size : Z) (st : list str * str)
    (sentence : str) : list str * str :=
  let '(chunks, temp_chunk) := st in
  if (len temp_chunk + len sentence <? chunk_size)%Z
  then (chunks,
        if truthy temp_chunk
        then temp_chunk ++ sentence_sep ++ sentence
        else sentence)
  else ((if truthy temp_chunk
         then chunks ++ [strip temp_chunk ++ s "."]
         else chunks),
        sentence).

(** One turn of the loop over the paragraphs; the state is
    [(chunks, current_chunk)]. *)
Definition add_paragraph (chunk_size : Z) (st : list str * str)
    (para : str) : list str * str :=
  let '(chunks, current_chunk) := st in
  if (len current_chunk + len para <? chunk_size)%Z
  then (chunks,
        if truthy current_chunk
        then current_chunk ++ para_sep ++ para
        else para)
  else
    let chunks1 :=
      if truthy current_chunk
      then chunks ++ [strip current_chunk] else chunks in
    if (len para >? chunk_size)%Z
    then fold_left (add_sentence chunk_size)
           (split_sep sentence_sep para) (chunks1, [])
    else (chunks1, para).

(** The tail of the previous chunk that is put in front of a chunk. *)
Definition overlap_text (overlap : Z) (prev_chunk : str) : str :=
  let prev_words := split prev_chunk in
  if (Z.of_nat (length prev_words) >? overlap / 10)%Z
  then join (s " ") (slice_from prev_words ((- overlap) / 10)%Z)
  else slice_from prev_chunk (- overlap)%Z.

Fixpoint add_overlap (overlap : Z) (prev_chunk : str) (rest : list str)
  : list str :=
  match rest with
  | [] => []
  | current_chunk :: rest' =>
      strip (overlap_text overlap prev_chunk ++ s " " ++ current_chunk)
      :: add_overlap overlap current_chunk rest'
  end.

Definition chunk_text_smart (text : str) (chunk_size overlap : Z)
  : list str :=
  let '(chunks0, current_chunk) :=
    fold_left (add_paragraph chunk_size) (paragraphs text) ([], []) in
  let chunks :=
    if truthy current_chunk
    then chunks0 ++ [strip current_chunk] else chunks0 in
  if (Z.of_nat (length chunks) >? 1)%Z && (overlap >? 0)%Z
  then match chunks with
       | [] => []
       | first :: rest => first :: add_overlap overlap first rest
       end
  else chunks.

End Chunker.

(* ===================================================================== *)
(** ** Python's stable sort *)
(* ===================================================================== *)

Module PySort.

Section Insertion.
Context {A : Type}.
(** [before x y]: [x] may stand in front of [y]. *)
Variable before : A -> A -> bool.

Fixpoint insert (x : A) (l : list A) : list A :=
  match l with
  | [] => [x]
  | y :: l' => if before x y then x :: l else y :: insert x l'
  end.

(** A stable sort: of two elements neither of which must come first,
    the one that came first in [l] stays first. *)
Fixpoint sort (l : list A) : list A :=
  match l with
  | [] => []
  | x :: l' => insert x (sort l')
  end.
End Insertion.

(** [enumerate(l)] *)
Definition enumerate {A} (l : list A) : list (nat * A) :=
  combine (seq 0 (length l)) l.

(** [l.sort(reverse=True, key=lambda x: x[0])] on pairs with a rational
    first component. *)
Definition sort_desc_by_fst {B} (l : list (Q * B)) : list (Q * B) :=
  sort (fun x y => Qle_bool (fst y) (fst x)) l.

(** [l.sort(reverse=True, key=lambda x: x[0])] on pairs with a natural
    first component. *)
Definition sort_desc_by_count {B} (l : list (nat * B)) : list (nat * B) :=
  sort (fun x y => fst y <=? fst x) l.

(** [np.argsort(l)]: the indices of [l] in ascending order of value.
    NumPy leaves the order of equal values open; here they keep their
    order. *)
Definition argsort (l : list Q) : list nat :=
  map fst (sort (fun x y => Qle_bool (snd x) (snd y)) (enumerate l)).

End PySort.

(* ===================================================================== *)
(** ** The similarity engine: [find_similar_chunks]  (embeddings.py) *)
(* ===================================================================== *)

(** An embedding vector. *)
Definition Vec : Type := list Q.

Module Embeddings.
Import PySlice PySort.

Section Engine.
(** [row_similarity row query]: the entry of
    [(chunk_vectors @ query_vector) / denom] for one row. *)
Variable row_similarity : Vec -> Vec -> Q.

Definition find_similar_chunks (query_embedding : Vec)
    (chunk_embeddings : option (list Vec)) (chunks : list str)
    (top_k : Z) (min_similarity : Q) : list (str * Q) :=
  match chunk_embeddings with
  | None => []
  | Some chunk_vectors =>
      if length chunk_vectors =? 0 then []
      else
        let similarities :=
          map (fun row => row_similarity row query_embedding)
              chunk_vectors in
        let above :=
          List.filter (fun p => Qle_bool min_similarity (fst p))
            (map (fun p => (snd p, fst p)) (enumerate similarities)) in
        let scored_indices :=
          match above with
          | [] =>
              let top_indices :=
                slice_to (rev (argsort similarities)) top_k in
              map (fun idx => (nth idx similarities 0%Q, idx))
                  top_indices
          | _ :: _ => sort_desc_by_fst above
          end in
        flat_map
          (fun p => let '(similarity, idx) := p in
                    if idx <? length chunks
                    then [(nth idx chunks [], similarity)]
                    else [])
          (slice_to scored_indices top_k)
  end.
End Engine.

End Embeddings.

(* ===================================================================== *)
(** ** The conversation store  (conversation_store.py) *)
(* ===================================================================== *)

Module Store.
Import PyStr.

(** One entry of a history: [{"role": role, "content": content}]. *)
Record Message := { role : str; content : str }.

Record Conversation := {
  history : list Message;
  document_text : str;
  document_chunks : list str;
  chunk_embeddings : option (list Vec)
}.

(** [Conversation()] *)
Definition new_conversation : Conversation :=
  {| history := []; document_text := [];
     document_chunks := []; chunk_embeddings := None |}.

Record ConversationStore := {
  _store : gmap str Conversation;
  _document_uploads : nat;
  _query_count : nat
}.

(** [ConversationStore()] *)
Definition empty_store : ConversationStore :=
  {| _store := ∅; _document_uploads := 0; _query_count := 0 |}.

(** The result of [get_stats]. *)
Record Stats := {
  total_conversations : nat;
  documents_indexed : nat;
  total_queries : nat
}.

(** A method: it returns a value and the store it leaves behind. *)
Definition Method (A : Type) : Type :=
  ConversationStore -> A * ConversationStore.

(** [self._store.setdefault(conversation_id, Conversation())]: the
    conversation found or created, and the map holding it. *)
Definition setdefault (conversation_id : str)
    (m : gmap str Conversation)
  : Conversation * gmap str Conversation :=
  match m !! conversation_id with
  | Some c => (c, m)
  | None => (new_conversation, <[conversation_id := new_conversation]> m)
  end.

(** [token] is the value [secrets.token_hex(16)] returns. *)
Definition start_conversation (token : str) : Method str :=
  fun st =>
    (token,
     {| _store := <[token := new_conversation]> (_store st);
        _document_uploads := _document_uploads st;
        _query_count := _query_count st |}).

Definition append_message (conversation_id role content : str)
  : Method unit :=
  fun st =>
    let '(conversation, m) := setdefault conversation_id (_store st) in
    let conversation' :=
      {| history :=
           history conversation
           ++ [ {| role := role; content := content |} ];
         document_text := document_text conversation;
         document_chunks := document_chunks conversation;
         chunk_embeddings := chunk_embeddings conversation |} in
    (tt,
     {| _store := <[conversation_id := conversation']> m;
        _document_uploads := _document_uploads st;
        _query_count :=
          if str_eqb role (s "user")
          then _query_count st + 1 else _query_count st |}).

(** [self._store.get(conversation_id, Conversation())] *)
Definition get_or_new (conversation_id : str) (st : ConversationStore)
  : Conversation :=
  match _store st !! conversation_id with
  | Some c => c
  | None => new_conversation
  end.

Definition get_history (conversation_id : str)
  : Method (list Message) :=
  fun st => (history (get_or_new conversation_id st), st).

Definition ensure_conversation (conversation_id : str) : Method str :=
  fun st =>
    match _store st !! conversation_id with
    | Some _ => (conversation_id, st)
    | None =>
        (conversation_id,
         {| _store := <[conversation_id := new_conversation]> (_store st);
            _document_uploads := _document_uploads st;
            _query_count := _query_count st |})
    end.

(** [generate_embeddings] is the embedding collaborator as it behaves at
    this call: [None] when it raises. *)
Definition store_document
    (generate_embeddings : list str -> option (list Vec))
    (conversation_id text : str) : Method unit :=
  fun st =>
    let '(conversation, m) := setdefault conversation_id (_store st) in
    let chunks := Chunker.chunk_text_smart text 500 100 in
    let '(embeddings, uploads) :=
      if truthy chunks
      then match generate_embeddings chunks with
           | Some embeddings =>
               (Some embeddings, _document_uploads st + 1)
           | None => (None, _document_uploads st)
           end
      else (None, _document_uploads st) in
    (tt,
     {| _store :=
          <[conversation_id :=
              {| history := history conversation;
                 document_text := text;
                 document_chunks := chunks;
                 chunk_embeddings := embeddings |}]> m;
        _document_uploads := uploads;
        _query_count := _query_count st |}).

Definition get_document_chunks (conversation_id : str)
  : Method (list str) :=
  fun st => (document_chunks (get_or_new conversation_id st), st).

Definition get_chunk_embeddings (conversation_id : str)
  : Method (option (list Vec)) :=
  fun st => (chunk_embeddings (get_or_new conversation_id st), st).

Definition get_stats : Method Stats :=
  fun st =>
    ({| total_conversations := size (_store st);
        documents_indexed := _document_uploads st;
        total_queries := _query_count st |},
     st).

(** *** Sequences of operations *)

Inductive Op :=
| OpStart (token : str)
| OpEnsure (conversation_id : str)
| OpAppend (conversation_id role content : str)
| OpStore (generate_embeddings : list str -> option (list Vec))
          (conversation_id text : str).

Definition run_op (st : ConversationStore) (op : Op) : ConversationStore :=
  match op with
  | OpStart token => snd (start_conversation token st)
  | OpEnsure cid => snd (ensure_conversation cid st)
  | OpAppend cid r c => snd (append_message cid r c st)
  | OpStore gen cid text => snd (store_document gen cid text st)
  end.

Definition run (ops : list Op) (st : ConversationStore)
  : ConversationStore :=
  fold_left run_op ops st.

End Store.

(* ===================================================================== *)
(** ** Keyword fallback engine and orchestrator  (rag_service.py) *)
(* ===================================================================== *)

Module Rag.
Import PyStr PySlice PySort Store.

Definition nl : str := s (String "010" EmptyString).

Definition RAG_SYSTEM_PROMPT : str :=
  s "You are a helpful AI assistant that answers questions based on the provided document context."
  ++ nl ++
  s "Use the document excerpts to provide accurate, relevant answers. If the context doesn't contain enough information, say so."
  ++ nl ++
  s "Be concise and cite relevant parts of the document when possible. When referencing information, mention which excerpt it came from.".

Definition follow_up_cues : list str :=
  [ s "other than that"; s "what else"; s "anything else";
    s "something more"; s "tell me more"; s "what more";
    s "what about the rest"; s "what improvements you can add" ].

Definition _is_follow_up_question (question : str) : bool :=
  let q := lower (strip question) in
  if negb (truthy q) then false
  else existsb (fun cue => contains cue q) follow_up_cues
       || (length (split q) <=? 4).

Definition _get_recent_assistant_answer (history : list Message)
  : option str :=
  match List.find (fun msg => str_eqb (role msg) (s "assistant"))
                  (rev history) with
  | Some msg => Some (content msg)
  | None => None
  end.

(** [bool(previous_answer)] for an optional string. *)
Definition given (previous_answer : option str) : bool :=
  match previous_answer with
  | Some a => truthy a
  | None => false
  end.

Definition text_of (previous_answer : option str) : str :=
  match previous_answer with Some a => a | None => [] end.

Definition _build_user_prompt (context question : str)
    (previous_answer : option str) : str :=
  let previous_context :=
    if given previous_answer
    then nl ++ nl ++
         s "Previous answer shared with the user (for reference, do not repeat verbatim unless needed):"
         ++ nl ++ text_of previous_answer
    else [] in
  s "Based on the following document excerpts, please answer the question."
  ++ nl ++ nl ++ context ++ previous_context ++ nl ++ nl
  ++ s "Question: " ++ question ++ nl ++ nl
  ++ s "Please provide a clear, accurate answer based on the excerpts. If the excerpts don't contain enough "
  ++ s "information, say so explicitly and suggest where the user might look in the document.".

(** The turns of [history[-n:]] whose role is user or assistant. *)
Definition recent_turns (n : Z) (history : list Message) : list Message :=
  map (fun msg => {| role := role msg; content := content msg |})
    (List.filter
       (fun msg => str_eqb (role msg) (s "user")
                   || str_eqb (role msg) (s "assistant"))
       (slice_from history (- n)%Z)).

Definition system_message : Message :=
  {| role := s "system"; content := RAG_SYSTEM_PROMPT |}.

Definition user_message (text : str) : Message :=
  {| role := s "user"; content := text |}.

(** *** Lexical scoring *)

(** [set(question.lower().split())] *)
Definition query_words (question : str) : list str :=
  dedup (split (lower question)).

(** [sum(1 for word in query_words if word in chunk_lower)] *)
Definition lexical_score (question chunk : str) : nat :=
  length (List.filter (fun word => contains word (lower chunk))
                      (query_words question)).

(** [scored_chunks] after the sort. *)
Definition scored_chunks (question : str) (document_chunks : list str)
  : list (nat * str) :=
  sort_desc_by_count
    (List.filter (fun p => 0 <? fst p)
       (map (fun chunk => (lexical_score question chunk, chunk))
            document_chunks)).

(** [max(score for score, _ in scored) if scored else 1] *)
Definition max_score (scored : list (nat * str)) : nat :=
  match scored with
  | [] => 1
  | _ :: _ => fold_right Nat.max 0 (map fst scored)
  end.

(** [float(score) / float(max_score) if max_score else 0.0] *)
Definition normalize (score max_score : nat) : Q :=
  if max_score =? 0 then 0%Q
  else (inject_Z (Z.of_nat score) / inject_Z (Z.of_nat max_score))%Q.

(** The evidence list built after the generation call, the same on
    success and on failure. *)
Definition retrieved_of (scored : list (nat * str)) : list (str * Q) :=
  map (fun p => (snd p, normalize (fst p) (max_score scored)))
      (slice_to scored 3).

Definition follow_up_answer (previous_answer : option str) : str :=
  let recent :=
    if given previous_answer then text_of previous_answer
    else s "I have already shared all the details the document contains so far." in
  s "I've already shared the available insights from the document. "
  ++ s "Previous answer:" ++ nl ++ recent ++ nl ++ nl
  ++ s "If you need something specific, try asking about a particular section or topic.".

Definition not_found_answer : str :=
  s "I couldn't find relevant information in the document related to that question.".

Definition keyword_failure_answer : str :=
  s "I found relevant information but couldn't process it. Please check your API configuration.".

(** The messages the keyword path sends to the generation API. *)
Definition keyword_messages (question : str) (relevant_chunks : list str)
    (history : list Message) (previous_answer : option str)
  : list Message :=
  let context :=
    join (nl ++ nl)
      (map (fun p => s "[Excerpt " ++ of_nat (fst p + 1) ++ s "]:"
                     ++ nl ++ snd p)
           (enumerate relevant_chunks)) in
  let previous_answer_text :=
    if given previous_answer
    then nl ++ nl ++ s "Previous answer: " ++ text_of previous_answer
    else [] in
  let text :=
    s "Document context:" ++ nl ++ context ++ nl ++ nl
    ++ s "Question: " ++ question ++ previous_answer_text ++ nl ++ nl
    ++ s "If the context does not answer the question, explain that the document doesn't mention it and suggest "
    ++ s "what the user could do next (e.g., check the cover page, metadata, or another section)." in
  [system_message] ++ recent_turns 6 history ++ [user_message text].

Section Orchestrator.
(** The similarity kernel of the engine. *)
Variable row_similarity : Vec -> Vec -> Q.
(** [f"{x:.2f}"] *)
Variable format_2f : Q -> str.
(** [generate_embeddings]: [None] when it raises. *)
Variable generate_embeddings : list str -> option (list Vec).
(** [groq_client.chat_completion(messages, temperature, max_tokens)]:
    [None] when it raises [GroqAPIError]. *)
Variable chat_completion : list Message -> Q -> Z -> option str.

Definition _fallback_keyword_search (question : str)
    (document_chunks : list str) (history : list Message)
    (previous_answer : option str) : str * list (str * Q) :=
  let scored := scored_chunks question document_chunks in
  let relevant_chunks := map snd (slice_to scored 3) in
  if negb (truthy relevant_chunks) then
    if _is_follow_up_question question
    then (follow_up_answer previous_answer, [])
    else (not_found_answer, [])
  else
    let messages :=
      keyword_messages question relevant_chunks history
        previous_answer in
    match chat_completion messages (3 # 10)%Q 800%Z with
    | Some answer => (answer, retrieved_of scored)
    | None => (keyword_failure_answer, retrieved_of scored)
    end.

(** The messages the semantic path sends to the generation API. *)
Definition semantic_messages (question : str)
    (similar_chunks : list (str * Q)) (history : list Message)
    (previous_answer : option str) : list Message :=
  let context_parts :=
    map (fun p =>
           s "[Excerpt " ++ of_nat (fst p + 1) ++ s " (relevance: "
           ++ format_2f (snd (snd p)) ++ s ")]:" ++ nl ++ fst (snd p))
        (enumerate similar_chunks) in
  let context := join (nl ++ nl) context_parts in
  [system_message] ++ recent_turns 8 history
  ++ [user_message (_build_user_prompt context question previous_answer)].

Definition semantic_failure_answer (similar_chunks : list (str * Q))
  : str :=
  let top_chunks_text :=
    join (nl ++ nl) (map fst (slice_to similar_chunks 2)) in
  s "I found relevant information but couldn't process it with AI. "
  ++ s "Here are the most relevant excerpts:" ++ nl ++ nl
  ++ top_chunks_text.

Definition no_document_answer : str :=
  s "No document has been uploaded yet. Please upload a document first.".

(** [generate_embeddings([question])[0]]: [None] when the call or the
    indexing raises. *)
Definition query_embedding_of (question : str) : option Vec :=
  match generate_embeddings [question] with
  | Some (v :: _) => Some v
  | _ => None
  end.

Definition chat_with_rag (conversation_id question : str)
    (st : ConversationStore) : str * list (str * Q) :=
  let '(history, st1) := get_history conversation_id st in
  let previous_answer := _get_recent_assistant_answer history in
  let '(document_chunks, st2) :=
    get_document_chunks conversation_id st1 in
  let '(chunk_embeddings, st3) :=
    get_chunk_embeddings conversation_id st2 in
  if negb (truthy document_chunks) then (no_document_answer, [])
  else
    match chunk_embeddings with
    | None =>
        _fallback_keyword_search question document_chunks history
          previous_answer
    | Some _ =>
        match query_embedding_of question with
        | None =>
            _fallback_keyword_search question document_chunks history
              previous_answer
        | Some query_embedding =>
            let similar_chunks :=
              Embeddings.find_similar_chunks row_similarity
                query_embedding chunk_embeddings document_chunks
                4%Z (2 # 10)%Q in
            if negb (truthy similar_chunks)
            then _fallback_keyword_search question document_chunks
                   history previous_answer
            else
              let messages :=
                semantic_messages question similar_chunks history
                  previous_answer in
              match chat_completion messages (3 # 10)%Q 1000%Z with
              | Some answer => (answer, similar_chunks)
              | None =>
                  (semantic_failure_answer similar_chunks,
                   similar_chunks)
              end
        end
    end.
End Orchestrator.

End Rag.

(* ===================================================================== *)
(** ** More Python string primitives *)
(* ===================================================================== *)

Module PyStrMore.
Import PyStr.

(** [c in chars] for a character. *)
Definition char_in (chars : str) (c : ascii) : bool :=
  existsb (char_eqb c) chars.

Fixpoint lstrip_chars (chars : str) (x : str) : str :=
  match x with
  | [] => []
  | c :: x' => if char_in chars c then lstrip_chars chars x' else x
  end.

(** [x.strip(chars)] *)
Definition strip_chars (chars : str) (x : str) : str :=
  lstrip_chars chars (rev (lstrip_chars chars (rev x))).

(** The line boundaries of [str.splitlines] below code point 256: line
    feed, vertical tab, form feed, carriage return, the separators 28, 29
    and 30, and NEL (133). *)
Definition is_linebreak (c : ascii) : bool :=
  let n := nat_of_ascii c in
  ((10 <=? n) && (n <=? 13)) || ((28 <=? n) && (n <=? 30)) || (n =? 133).

(** [x.splitlines()]: the lines without their boundaries; a carriage
    return followed by a line feed is one boundary; no empty last line.
    [cur] is the line being read, reversed. *)
Fixpoint splitlines_go (cur : str) (x : str) : list str :=
  match x with
  | [] => match cur with [] => [] | _ => [rev cur] end
  | c :: x' =>
      if is_linebreak c
      then rev cur ::
           match x' with
           | d :: x'' =>
               if (nat_of_ascii c =? 13) && (nat_of_ascii d =? 10)
               then splitlines_go [] x''
               else splitlines_go [] x'
           | [] => splitlines_go [] x'
           end
      else splitlines_go (c :: cur) x'
  end.

Definition splitlines (x : str) : list str := splitlines_go [] x.

End PyStrMore.

(* ===================================================================== *)
(** ** The response models  (models.py) *)
(* ===================================================================== *)

Module Models.

(** [word_count] is a [len(...)] in the parser, hence a natural number. *)
Record DocumentMetadata := {
  filename : str;
  file_type : str;
  pages : option Z;
  word_count : nat;
  language : option str
}.

Record ParsedDocument := {
  metadata : DocumentMetadata;
  text : str
}.

(** The request's [conversation_id] is [request_conversation_id] here: a
    second record of this module has a field of that name. *)
Record FollowUpRequest := {
  request_conversation_id : str;
  question : str
}.

Record RetrievedSource := {
  excerpt_id : nat;
  content : str;
  similarity : Q
}.

Record ChatResponse := {
  conversation_id : str;
  answer : str;
  key_points : list str;
  sources : list RetrievedSource
}.

End Models.

(* ===================================================================== *)
(** ** The generation client without a key  (groq_api.py) *)
(* ===================================================================== *)

Module Groq.
Import PyStr Store.

Definition nl : str := s (String "010" EmptyString).

(** [next((m["content"] for m in reversed(messages)
          if m["role"] == "user"), "No prompt provided.")] *)
Definition last_user (messages : list Message) : str :=
  match List.find (fun m => str_eqb (role m) (s "user")) (rev messages) with
  | Some m => content m
  | None => s "No prompt provided."
  end.

Definition _fallback_response (messages : list Message) : str :=
  s "Groq API key not configured. Running in offline fallback mode."
  ++ nl ++ nl ++ s "Last user prompt:" ++ nl
  ++ last_user messages ++ nl ++ nl
  ++ s "Please configure GROQ_API_KEY to enable live analysis.".

(** [GroqClient.chat_completion]: without a key the offline answer; with a
    key the HTTP exchange, [post], which yields the text of the first
    choice or [None] when [GroqAPIError] is raised. *)
Definition chat_completion (api_key : str)
    (post : list Message -> Q -> Z -> option str)
    (messages : list Message) (temperature : Q) (max_tokens : Z)
  : option str :=
  if negb (truthy api_key) then Some (_fallback_response messages)
  else post messages temperature max_tokens.

End Groq.

(* ===================================================================== *)
(** ** The request handlers  (services.py) *)
(* ===================================================================== *)

Module Services.
Import PyStr PyStrMore PySlice PySort Store Rag Models.

(** [line.strip().startswith(("-", "*"))] *)
Definition is_bullet (line : str) : bool :=
  startswith (s "-") (strip line) || startswith (s "*") (strip line).

Definition _extract_bullets (answer : str) : list str :=
  let bullets :=
    map (fun line => strip (strip_chars (s "-* ") line))
        (List.filter is_bullet (splitlines answer)) in
  if truthy (slice_to bullets 5) then slice_to bullets 5
  else [slice_to answer 120].

Section Handlers.
Variable row_similarity : Vec -> Vec -> Q.
Variable format_2f : Q -> str.
Variable generate_embeddings : list str -> option (list Vec).
Variable chat_completion : list Message -> Q -> Z -> option str.

(** [parse_document] is what [await parse_document(file)] yields: [None]
    when it raises, and then the exception leaves the handler. *)
Definition upload_document (parse_document : option ParsedDocument)
    (conversation_id : str) : Method (option ParsedDocument) :=
  fun st =>
    let '(_, st1) := ensure_conversation conversation_id st in
    match parse_document with
    | None => (None, st1)
    | Some document =>
        let '(_, st2) :=
          store_document generate_embeddings conversation_id
            (text document) st1 in
        let '(_, st3) :=
          append_message conversation_id (s "system")
            (s "Document '" ++ filename (metadata document)
             ++ s "' uploaded ("
             ++ of_nat (word_count (metadata document))
             ++ s " words). Ready for questions.") st2 in
        (Some document, st3)
    end.

Definition chat_with_rag_context (request : FollowUpRequest)
  : Method ChatResponse :=
  fun st =>
    let '(_, st1) :=
      append_message (request_conversation_id request) (s "user")
        (question request) st in
    let '(answer, retrieved_chunks) :=
      chat_with_rag row_similarity format_2f generate_embeddings
        chat_completion (request_conversation_id request)
        (question request) st1 in
    let '(_, st2) :=
      append_message (request_conversation_id request) (s "assistant")
        answer st1 in
    let key_points := _extract_bullets answer in
    let sources :=
      map (fun p =>
             {| excerpt_id := fst p + 1;
                content := fst (snd p);
                similarity := snd (snd p) |})
          (enumerate retrieved_chunks) in
    ({| conversation_id := request_conversation_id request;
        answer := answer;
        key_points := key_points;
        sources := sources |},
     st2).
End Handlers.

End Services.

(* ===================================================================== *)
(** ** The upload endpoint  (main.py) *)
(* ===================================================================== *)

Module Main.
Import PyStr Store Rag Models Services.

(** [UploadResponse]; its [conversation_id] is [upload_conversation_id]
    here. *)
Record UploadResponse := {
  upload_conversation_id : str;
  message : str;
  upload_metadata : DocumentMetadata
}.

Section Endpoints.
Variable generate_embeddings : list str -> option (list Vec).

(** [token] is the value [secrets.token_hex(16)] would return;
    [parse_document] is what parsing the file yields, [None] when it
    raises and the request fails. *)
Definition upload (token : str) (parse_document : option ParsedDocument)
    (conversation_id : option str) : Method (option UploadResponse) :=
  fun st =>
    let '(conversation_key, st1) :=
      if given conversation_id then (text_of conversation_id, st)
      else start_conversation token st in
    let '(document, st2) :=
      upload_document generate_embeddings parse_document conversation_key
        st1 in
    match document with
    | None => (None, st2)
    | Some document =>
        (Some
           {| upload_conversation_id := conversation_key;
              message :=
                s "Document '" ++ filename (metadata document)
                ++ s "' uploaded successfully. You can now ask questions about it.";
              upload_metadata := metadata document |},
         st2)
    end.
End Endpoints.

End Main.

(* ===================================================================== *)
(** * Vocabulary of the properties, and sample data *)
(* ===================================================================== *)

Module ChunkerSpec.
Import PyStr Chunker.

(** The characters of the pieces, without the separators. *)
Definition total (ps : list str) : nat := list_sum (map (@length _) ps).

Definition blank (x : str) : Prop := Forall (fun c => isspace c = true) x.

(** [x] starts with a character that is not white space. *)
Definition starts_clean (x : str) : Prop :=
  exists c x', x = c :: x' /\ isspace c = false.

(** A paragraph as [paragraphs] yields them: trimmed and not empty. *)
Definition trimmed (p : str) : Prop :=
  starts_clean p /\ starts_clean (rev p).

End ChunkerSpec.

Module EngineSpec.
Import PySlice PySort Embeddings.

(** A kernel to run the engine on: the plain dot product. *)
Fixpoint plain_dot (u v : Vec) : Q :=
  match u, v with
  | x :: u', y :: v' => (x * y + plain_dot u' v')%Q
  | _, _ => 0%Q
  end.


Definition pick (chunks : list str) (p : Q * nat) : list (str * Q) :=
  let '(similarity, idx) := p in
  if idx <? length chunks then [(nth idx chunks [], similarity)] else [].

Section Engine.
Variable row_similarity : Vec -> Vec -> Q.

Definition similarities (q : Vec) (rows : list Vec) : list Q :=
  map (fun row => row_similarity row q) rows.

Definition above (q : Vec) (rows : list Vec) (m : Q) : list (Q * nat) :=
  List.filter (fun p => Qle_bool m (fst p))
  (map (fun p => (snd p, fst p)) (enumerate (similarities q rows))).

Definition scored_indices (q : Vec) (rows : list Vec) (k : Z) (m : Q)
  : list (Q * nat) :=
  match above q rows m with
  | [] => map (fun idx => (nth idx (similarities q rows) 0%Q, idx))
              (slice_to (rev (argsort (similarities q rows))) k)
  | _ :: _ => sort_desc_by_fst (above q rows m)
  end.

End Engine.

End EngineSpec.

Module StoreSpec.
Import PyStr Store.

(** The vectors of a conversation, when present, are as many as its
    chunks. *)
Definition aligned (c : Conversation) : Prop :=
  forall vs, chunk_embeddings c = Some vs ->
             length vs = length (document_chunks c).

(** The embedding collaborator's contract: one vector per text. *)
Definition one_vector_per_text
    (gen : list str -> option (list Vec)) : Prop :=
  forall texts vs, gen texts = Some vs -> length vs = length texts.

Definition op_respects_contract (op : Op) : Prop :=
  match op with
  | OpStore gen _ _ => one_vector_per_text gen
  | _ => True
  end.

(** [store_document] is among [ops] for [cid]. *)
Definition stores_into (cid : str) (op : Op) : Prop :=
  match op with
  | OpStore _ cid' _ => cid' = cid
  | _ => False
  end.

Definition without_document (c : Conversation) : Prop :=
  document_chunks c = [] /\ chunk_embeddings c = None.

Definition store_aligned (st : ConversationStore) : Prop :=
  forall cid c, _store st !! cid = Some c -> aligned c.

Definition bare_at (cid : str) (st : ConversationStore) : Prop :=
  forall c, _store st !! cid = Some c -> without_document c.

Definition unit_embedder : list str -> option (list Vec) :=
  fun texts => Some (map (fun _ => [1%Q]) texts).

Definition failing_embedder : list str -> option (list Vec) :=
  fun _ => None.

Definition sample_ops : list Op :=
  [ OpStart (s "c1");
    OpStore unit_embedder (s "c1") (s "Paris is the capital of France.");
    OpAppend (s "c2") (s "user") (s "hello") ].

Definition sample_conversation : Conversation :=
  {| history := [];
     document_text := s "Paris is the capital of France.";
     document_chunks := [s "Paris is the capital of France."];
     chunk_embeddings := Some [[1%Q]] |}.

End StoreSpec.

Module KeywordSpec.
Import PyStr PySlice Store Rag.

Definition all_scored (question : str) (chunks : list str)
  : list (nat * str) :=
  map (fun chunk => (lexical_score question chunk, chunk)) chunks.

(** The largest raw score over all the chunks. *)
Definition best_score (question : str) (chunks : list str) : nat :=
  fold_right Nat.max 0 (map (lexical_score question) chunks).

Definition claimed_phrases : list str :=
  [ s "what else"; s "tell me more"; s "other than that";
    s "anything else"; s "something more"; s "what more";
    s "what about the rest"; s "what improvements you can add" ].

(** The follow-up test in the words of the specification, on the
    trimmed, lower-cased question [q]. *)
Definition is_follow_up (q : str) : Prop :=
  q <> []
  /\ ((exists cue pre post,
         In cue claimed_phrases /\ q = pre ++ cue ++ post)
      \/ length (split q) <= 4).

Definition failing_chat : list Message -> Q -> Z -> option str :=
  fun _ _ _ => None.

Definition capitals : list str :=
  [ s "Paris is the capital of France.";
    s "Berlin is the capital of Germany." ].

Definition sample_store : ConversationStore :=
  run [ OpStore StoreSpec.unit_embedder (s "c1")
          (s "Paris is the capital of France.") ] empty_store.

Definition fixed_format : Q -> str := fun _ => s "1.00".

Section Orchestrator.
Variable row_similarity : Vec -> Vec -> Q.
Variable generate_embeddings : list str -> option (list Vec).

(** The keyword path of [chat_with_rag] is taken. *)
Definition keyword_path (question : str) (chunks : list str)
  (emb : option (list Vec)) : Prop :=
  chunks <> []
  /\ (emb = None
      \/ query_embedding_of generate_embeddings question = None
      \/ exists qv,
           query_embedding_of generate_embeddings question = Some qv
           /\ Embeddings.find_similar_chunks row_similarity qv emb
                chunks 4 (2 # 10)%Q = []).

End Orchestrator.

End KeywordSpec.

Module StoreTraceSpec.
Import PyStr Store.

(** The identifier an operation works on. *)
Definition op_target (op : Op) : str :=
  match op with
  | OpStart token => token
  | OpEnsure cid => cid
  | OpAppend cid _ _ => cid
  | OpStore _ cid _ => cid
  end.

(** [op] is not [start_conversation] drawing [cid]. *)
Definition not_start (cid : str) (op : Op) : Prop :=
  match op with
  | OpStart token => token <> cid
  | _ => True
  end.

(** The messages [ops] append to [cid], in order. *)
Definition appended (cid : str) (ops : list Op) : list Message :=
  flat_map
    (fun op =>
       match op with
       | OpAppend c r t =>
           if bool_decide (c = cid)
           then [ {| role := r; content := t |} ] else []
       | _ => []
       end) ops.

(** The document fields [store_document] writes. *)
Definition stored_fields (gen : list str -> option (list Vec)) (text : str)
  : str * list str * option (list Vec) :=
  let chunks := Chunker.chunk_text_smart text 500 100 in
  (text, chunks, if truthy chunks then gen chunks else None).

Definition fields_of (c : Conversation)
  : str * list str * option (list Vec) :=
  (document_text c, document_chunks c, chunk_embeddings c).

(** The document fields of [cid] after [ops], given those before. *)
Definition last_stored (cid : str) (ops : list Op)
    (before : str * list str * option (list Vec))
  : str * list str * option (list Vec) :=
  fold_left
    (fun acc op =>
       match op with
       | OpStore gen c text =>
           if bool_decide (c = cid) then stored_fields gen text else acc
       | _ => acc
       end) ops before.

(** [op] is an [append_message] with role user. *)
Definition is_user_append (op : Op) : bool :=
  match op with
  | OpAppend _ r _ => str_eqb r (s "user")
  | _ => false
  end.

(** [op] is a [store_document] whose document has chunks and whose
    embedding call returns. *)
Definition is_indexed (op : Op) : bool :=
  match op with
  | OpStore gen _ text =>
      truthy (Chunker.chunk_text_smart text 500 100)
      && match gen (Chunker.chunk_text_smart text 500 100) with
         | Some _ => true
         | None => false
         end
  | _ => false
  end.

Definition user_appends (ops : list Op) : nat :=
  length (List.filter is_user_append ops).

Definition indexed (ops : list Op) : nat :=
  length (List.filter is_indexed ops).

End StoreTraceSpec.

Module ChunkerMoreSpec.
Import PyStr Chunker ChunkerSpec.

(** [x] ends with a character that is not white space. *)
Definition ends_clean (x : str) : Prop := starts_clean (rev x).

(** The running chunk is empty or ends with a character that is not white
    space. *)
Definition running_ok (x : str) : Prop := x = [] \/ ends_clean x.

End ChunkerMoreSpec.

Module KeywordMoreSpec.
Import PyStr Store Rag.

(** [x] occurs in [y] as a substring. *)
Definition occurs_in (x y : str) : Prop := exists pre post, y = pre ++ x ++ post.

Definition is_assistant (m : Message) : Prop := role m = s "assistant".

Definition user_or_assistant (m : Message) : Prop :=
  role m = s "user" \/ role m = s "assistant".

End KeywordMoreSpec.

Module ServicesSpec.
Import PyStr PyStrMore Store Models Services.

(** The key point a bullet line gives. *)
Definition bullet_text (line : str) : str :=
  strip (strip_chars (s "-* ") line).

(** The notice [upload_document] leaves in the history. *)
Definition upload_notice (document : ParsedDocument) : Message :=
  {| role := s "system";
     Store.content :=
       s "Document '" ++ filename (metadata document) ++ s "' uploaded ("
       ++ of_nat (word_count (metadata document))
       ++ s " words). Ready for questions." |}.

End ServicesSpec.

Module SampleData.
Import PyStr Store StoreSpec Models.

Definition two_uploads : list Op :=
  [ OpStore unit_embedder (s "c1") (s "Paris is the capital of France.");
    OpStore failing_embedder (s "c1") (s "Berlin.") ].

Definition unit_rows : list Vec := [[1%Q; 0%Q]; [0%Q; 1%Q]].

Definition sample_request : FollowUpRequest :=
  {| request_conversation_id := s "c1"; question := s "capital?" |}.

Definition sample_document : ParsedDocument :=
  {| metadata :=
       {| filename := s "notes.txt"; file_type := s "txt"; pages := None;
          word_count := 6; language := None |};
     text := s "Paris is the capital of France." |}.

Definition bullet_answer : str :=
  s "- first" ++ s (String "010" EmptyString) ++ s "* second".

Definition echo_chat : list Message -> Q -> Z -> option str :=
  fun _ _ _ => Some (s "Paris.").

End SampleData.

(* ===================================================================== *)
(** * Properties *)
(* ===================================================================== *)

Module PySortProps.
Import PySort PySlice.

Section Insertion.
Context {A : Type} (before : A -> A -> bool).
Hypothesis before_total :
  forall x y, before x y = false -> before y x = true.
Hypothesis before_trans :
  forall x y z, before x y = true -> before y z = true ->
                before x z = true.

Let R (x y : A) : Prop := before x y = true.

Lemma insert_perm x l : Permutation (insert before x l) (x :: l).
Proof.
  induction l as [|y l IH]; simpl; [reflexivity|].
  destruct (before x y); [reflexivity|].
  rewrite IH. apply perm_swap.
Qed.

Lemma sort_perm l : Permutation (sort before l) l.
Proof.
  induction l as [|x l IH]; simpl; [reflexivity|].
  rewrite insert_perm. by constructor.
Qed.

Lemma insert_sorted x l :
  StronglySorted R l -> StronglySorted R (insert before x l).
Proof.
  induction 1 as [|y l Hs IH Hy]; simpl.
  - repeat constructor.
  - destruct (before x y) eqn:E.
    + constructor; [by constructor|].
      constructor; [exact E|].
      eapply Forall_impl; [|exact Hy].
      intros z Hz. eapply before_trans; eassumption.
    + constructor; [exact IH|].
      rewrite insert_perm. constructor; [|exact Hy].
      by apply before_total.
Qed.

Lemma sort_sorted l : StronglySorted R (sort before l).
Proof.
  induction l as [|x l IH]; simpl; [constructor|].
  by apply insert_sorted.
Qed.
End Insertion.



Lemma enumerate_fst {A} (l : list A) :
  map fst (enumerate l) = seq 0 (length l).
Proof.
  unfold enumerate. generalize 0.
  induction l as [|x l IH]; intros n; simpl; [reflexivity|].
  by rewrite IH.
Qed.

Lemma enumerate_snd {A} (l : list A) : map snd (enumerate l) = l.
Proof.
  unfold enumerate. generalize 0.
  induction l as [|x l IH]; intros n; simpl; [reflexivity|].
  by rewrite IH.
Qed.

Lemma enumerate_length {A} (l : list A) : length (enumerate l) = length l.
Proof. by rewrite <- (length_map fst), enumerate_fst, length_seq. Qed.

Lemma enumerate_nth {A} (l : list A) (d : A) i x :
  In (i, x) (enumerate l) -> i < length l /\ nth i l d = x.
Proof.
  unfold enumerate.
  assert (forall n, In (i, x) (combine (seq n (length l)) l) ->
                    n <= i < n + length l /\ nth (i - n) l d = x) as H.
  { induction l as [|y l IH]; intros n; simpl; [tauto|].
    intros [[= <- <-]|Hin].
    - split; [lia|]. by rewrite Nat.sub_diag.
    - destruct (IH _ Hin) as [Hr Hn]. split; [lia|].
      replace (i - n) with (S (i - S n)) by lia. exact Hn. }
  intros Hin. destruct (H 0 Hin) as [Hr Hn].
  rewrite Nat.sub_0_r in Hn. split; [lia|exact Hn].
Qed.

(** Every slice [l[:k]] is a prefix of [l]. *)
Lemma slice_to_firstn {A} (l : list A) (k : Z) :
  exists n, slice_to l k = firstn n l /\ ((0 <= k)%Z -> n = Z.to_nat k).
Proof.
  unfold slice_to. destruct (k <? 0)%Z eqn:E.
  - eexists. split; [reflexivity|]. apply Z.ltb_lt in E. lia.
  - eexists. split; reflexivity.
Qed.

Lemma slice_to_nonneg {A} (l : list A) (k : Z) :
  (0 <= k)%Z -> slice_to l k = firstn (Z.to_nat k) l.
Proof.
  intros H. unfold slice_to.
  destruct (k <? 0)%Z eqn:E; [apply Z.ltb_lt in E; lia|reflexivity].
Qed.

Lemma StronglySorted_firstn {A} (R : A -> A -> Prop) n l :
  StronglySorted R l -> StronglySorted R (firstn n l).
Proof.
  intros H. revert n.
  induction H as [|x l Hs IH Hx]; intros [|n]; simpl; try constructor.
  - apply IH.
  - by apply Forall_take.
Qed.

Lemma StronglySorted_impl {A} (R R' : A -> A -> Prop) l :
  (forall x y, R x y -> R' x y) ->
  StronglySorted R l -> StronglySorted R' l.
Proof.
  intros Hi. induction 1 as [|x l Hs IH Hx]; constructor; [exact IH|].
  eapply Forall_impl; [|exact Hx]. intros y. apply Hi.
Qed.


Lemma StronglySorted_map {A B} (f : A -> B) (R : B -> B -> Prop) l :
  StronglySorted (fun x y => R (f x) (f y)) l ->
  StronglySorted R (map f l).
Proof.
  induction 1 as [|x l Hs IH Hx]; simpl; constructor; [exact IH|].
  rewrite Forall_forall in *. intros y Hy.
  apply in_map_iff in Hy as (z & <- & Hz). by apply Hx.
Qed.



Lemma argsort_perm (l : list Q) :
  Permutation (argsort l) (seq 0 (length l)).
Proof.
  unfold argsort. rewrite <- enumerate_fst.
  apply Permutation_map, sort_perm.
Qed.


End PySortProps.

Module EngineProps.
Import PySort PySlice PySortProps Embeddings EngineSpec.

Section Engine.
Variable row_similarity : Vec -> Vec -> Q.

Lemma find_similar_chunks_rows q rows chunks k m :
  rows <> [] ->
  find_similar_chunks row_similarity q (Some rows) chunks k m
  = flat_map (pick chunks) (slice_to (scored_indices row_similarity q rows k m) k).
Proof. destruct rows; [done|reflexivity]. Qed.

Lemma similarities_length q rows :
  length (similarities row_similarity q rows) = length rows.
Proof. apply length_map. Qed.


Lemma scored_indices_in_range q rows k m :
  Forall (fun p => snd p < length rows) (scored_indices row_similarity q rows k m).
Proof.
  unfold scored_indices. destruct (above row_similarity q rows m) eqn:E.
  - destruct (slice_to_firstn (rev (argsort (similarities row_similarity q rows))) k)
      as (n & -> & _).
    rewrite Forall_map. simpl. apply Forall_take.
    rewrite Forall_forall. intros i Hi. apply in_rev in Hi.
    eapply Permutation_in in Hi; [|apply argsort_perm].
    apply in_seq in Hi. rewrite similarities_length in Hi. lia.
  - rewrite <- E. rewrite Forall_forall. intros [v i] Hin.
    eapply Permutation_in in Hin; [|apply sort_perm].
    apply filter_In in Hin as [Hin _].
    apply in_map_iff in Hin as ([j w] & [= <- <-] & Hin).
    apply (enumerate_nth _ 0%Q) in Hin as [Hlt _].
    rewrite similarities_length in Hlt. exact Hlt.
Qed.


Lemma pick_length chunks l :
  length (flat_map (pick chunks) l) <= length l.
Proof.
  induction l as [|[v i] l IH]; simpl; [lia|].
  destruct (i <? length chunks); simpl; lia.
Qed.


Lemma above_nil_iff q rows m :
  above row_similarity q rows m = [] <->
  (forall v, In v (similarities row_similarity q rows) -> ~ (m <= v)%Q).
Proof.
  unfold above. split.
  - intros H v Hv Hle.
    rewrite <- (enumerate_snd (similarities row_similarity q rows)) in Hv.
    apply in_map_iff in Hv as ([i w] & <- & Hin). simpl in Hle.
    assert (In (w, i)
              (List.filter (fun p => Qle_bool m (fst p))
                 (map (fun p => (snd p, fst p))
                    (enumerate (similarities row_similarity q rows))))) as Hc.
    { apply filter_In. split.
      - apply in_map_iff. by exists (i, w).
      - by apply Qle_bool_iff. }
    rewrite H in Hc. destruct Hc.
  - intros H.
    destruct (List.filter _ _) as [|[v i] l] eqn:E; [reflexivity|].
    assert (In (v, i) ((v, i) :: l)) as Hin by (simpl; auto).
    rewrite <- E in Hin. apply filter_In in Hin as [Hin Hle].
    apply in_map_iff in Hin as ([j w] & [= <- <-] & Hin).
    exfalso. apply (H w).
    + rewrite <- (enumerate_snd (similarities row_similarity q rows)).
      apply in_map_iff. by exists (j, w).
    + by apply Qle_bool_iff.
Qed.



End Engine.





End EngineProps.

Module StoreProps.
Import PyStr Store StoreSpec.

Lemma aligned_new : aligned new_conversation.
Proof. intros vs H. discriminate H. Qed.

Lemma setdefault_lookup (cid : str) (m : gmap str Conversation) :
  snd (setdefault cid m) !! cid = Some (fst (setdefault cid m)).
Proof.
  unfold setdefault. destruct (m !! cid) eqn:E; simpl.
  - exact E.
  - apply lookup_insert_eq.
Qed.

Lemma setdefault_other (cid cid' : str) (m : gmap str Conversation) :
  cid <> cid' -> snd (setdefault cid m) !! cid' = m !! cid'.
Proof.
  intros Hne. unfold setdefault. destruct (m !! cid); simpl; [reflexivity|].
  by apply lookup_insert_ne.
Qed.

Lemma setdefault_fst (cid : str) (m : gmap str Conversation) :
  fst (setdefault cid m) = default new_conversation (m !! cid).
Proof. unfold setdefault. by destruct (m !! cid). Qed.

(** What each operation leaves under an identifier. *)
Lemma lookup_run_op st op (cid : str) c :
  _store (run_op st op) !! cid = Some c ->
  _store st !! cid = Some c
  \/ c = new_conversation
  \/ (exists c0 r t,
        default new_conversation (_store st !! cid) = c0 /\
        op = OpAppend cid r t /\
        document_chunks c = document_chunks c0 /\
        chunk_embeddings c = chunk_embeddings c0)
  \/ (exists gen text, op = OpStore gen cid text /\
        document_chunks c = Chunker.chunk_text_smart text 500 100 /\
        (chunk_embeddings c = None \/
         chunk_embeddings c = gen (Chunker.chunk_text_smart text 500 100))).
Proof.
  destruct op as [tok|cid0|cid0 r t|gen cid0 text]; simpl.
  - destruct (decide (tok = cid)) as [->|Hne].
    + rewrite lookup_insert_eq. intros [= <-]. auto.
    + rewrite lookup_insert_ne by done. auto.
  - unfold ensure_conversation.
    destruct (_store st !! cid0) eqn:E; simpl; auto.
    destruct (decide (cid0 = cid)) as [->|Hne].
    + rewrite lookup_insert_eq. intros [= <-]. auto.
    + rewrite lookup_insert_ne by done. auto.
  - unfold append_message.
    destruct (setdefault cid0 (_store st)) as [c0 m] eqn:E. simpl.
    destruct (decide (cid0 = cid)) as [->|Hne].
    + rewrite lookup_insert_eq. intros [= <-].
      right; right; left. exists c0, r, t.
      pose proof (setdefault_fst cid (_store st)) as Hf.
      rewrite E in Hf. simpl in Hf. auto.
    + rewrite lookup_insert_ne by done.
      pose proof (setdefault_other cid0 cid (_store st) Hne) as Ho.
      rewrite E in Ho. simpl in Ho. rewrite Ho. auto.
  - unfold store_document.
    destruct (setdefault cid0 (_store st)) as [c0 m] eqn:E.
    set (chunks := Chunker.chunk_text_smart text 500 100).
    destruct (truthy chunks) eqn:Ht;
      [destruct (gen chunks) eqn:Hg|]; simpl;
      (destruct (decide (cid0 = cid)) as [->|Hne];
       [ rewrite lookup_insert_eq; intros [= <-];
         right; right; right; exists gen, text; simpl; auto
       | rewrite lookup_insert_ne by done;
         pose proof (setdefault_other cid0 cid (_store st) Hne) as Ho;
         rewrite E in Ho; simpl in Ho; rewrite Ho; auto ]).
Qed.

Lemma run_op_aligned st op :
  op_respects_contract op -> store_aligned st ->
  store_aligned (run_op st op).
Proof.
  intros Hc Hst cid c Hl.
  destruct (lookup_run_op _ _ _ _ Hl)
    as [H|[->|[(c0 & r & t & H0 & -> & Hd & He)|(gen & text & -> & Hd & He)]]].
  - eauto.
  - apply aligned_new.
  - intros vs Hvs. rewrite Hd. rewrite He in Hvs.
    assert (aligned c0) as Ha.
    { subst c0. destruct (_store st !! cid) eqn:E; simpl.
      - eauto.
      - apply aligned_new. }
    by apply Ha.
  - intros vs Hvs. rewrite Hd. destruct He as [He|He]; rewrite He in Hvs.
    + discriminate.
    + by apply Hc.
Qed.

Lemma run_aligned ops : forall st,
  Forall op_respects_contract ops -> store_aligned st ->
  store_aligned (run ops st).
Proof.
  induction ops as [|op ops IH]; intros st Hc Hst; simpl; [exact Hst|].
  inversion Hc; subst. apply IH; [assumption|].
  by apply run_op_aligned.
Qed.

Lemma run_op_bare (cid : str) st op :
  ~ stores_into cid op -> bare_at cid st -> bare_at cid (run_op st op).
Proof.
  intros Hn Hst c Hl.
  destruct (lookup_run_op _ _ _ _ Hl)
    as [H|[->|[(c0 & r & t & H0 & -> & Hd & He)|(gen & text & -> & Hd & He)]]].
  - eauto.
  - by split.
  - assert (without_document c0) as [Ha Hb].
    { subst c0. destruct (_store st !! cid) eqn:E; simpl.
      - eauto.
      - by split. }
    split; congruence.
  - exfalso. apply Hn. reflexivity.
Qed.

Lemma run_bare (cid : str) ops : forall st,
  Forall (fun op => ~ stores_into cid op) ops -> bare_at cid st ->
  bare_at cid (run ops st).
Proof.
  induction ops as [|op ops IH]; intros st Hn Hst; simpl; [exact Hst|].
  inversion Hn; subst. apply IH; [assumption|].
  by apply run_op_bare.
Qed.

(** C3.  After every sequence of [start_conversation],
    [ensure_conversation], [append_message] and [store_document] on a fresh
    store, with an embedding collaborator that returns one vector per text,
    every stored conversation has as many vectors as chunks whenever its
    vectors are present; and a conversation into which no document was
    stored has no chunks and absent vectors. *)
Theorem store_invariants (ops : list Op) (cid : str) (c : Conversation) :
  Forall op_respects_contract ops ->
  _store (run ops empty_store) !! cid = Some c ->
  (forall vs, chunk_embeddings c = Some vs ->
              length vs = length (document_chunks c))
  /\ (Forall (fun op => ~ stores_into cid op) ops ->
      document_chunks c = [] /\ chunk_embeddings c = None).
Proof.
  intros Hc Hl. split.
  - eapply (run_aligned ops empty_store); eauto.
    intros cid' c' H. simpl in H. rewrite lookup_empty in H. discriminate.
  - intros Hn. eapply (run_bare cid ops empty_store); eauto.
    intros c' H. simpl in H. rewrite lookup_empty in H. discriminate.
Qed.

Lemma unit_embedder_contract : one_vector_per_text unit_embedder.
Proof. intros texts vs [= <-]. apply length_map. Defined.

Lemma store_invariants_witness :
  Forall op_respects_contract sample_ops /\
  _store (run sample_ops empty_store) !! s "c1" = Some sample_conversation /\
  (forall vs, chunk_embeddings sample_conversation = Some vs ->
              length vs = length (document_chunks sample_conversation)).
Proof.
  assert (Forall op_respects_contract sample_ops) as Hc.
  { repeat constructor. exact unit_embedder_contract. }
  assert (_store (run sample_ops empty_store) !! s "c1"
          = Some sample_conversation) as Hl
    by (vm_compute; reflexivity).
  split; [exact Hc|]. split; [exact Hl|].
  exact (proj1 (store_invariants sample_ops (s "c1") sample_conversation
                  Hc Hl)).
Defined.

(** C4.  When embedding generation raises in [store_document], the text
    and its chunks are still stored on the conversation, the vectors are
    absent, and the documents-indexed counter is unchanged.  Hence one
    upload whose embedding succeeds and one whose embedding fails, in either
    order, raise the counter by exactly one: on a fresh store the metric
    reads 1, not 2. *)
Theorem embedding_failure_not_counted :
  (forall gen cid text st,
      gen (Chunker.chunk_text_smart text 500 100) = None ->
      let st' := snd (store_document gen cid text st) in
      (exists c, _store st' !! cid = Some c /\
                 document_text c = text /\
                 document_chunks c = Chunker.chunk_text_smart text 500 100 /\
                 chunk_embeddings c = None)
      /\ documents_indexed (fst (get_stats st'))
         = documents_indexed (fst (get_stats st)))
  /\
  (forall gen_ok gen_fail cid1 cid2 text1 text2 vs st,
      Chunker.chunk_text_smart text1 500 100 <> [] ->
      gen_ok (Chunker.chunk_text_smart text1 500 100) = Some vs ->
      gen_fail (Chunker.chunk_text_smart text2 500 100) = None ->
      documents_indexed
        (fst (get_stats
                (run [OpStore gen_ok cid1 text1; OpStore gen_fail cid2 text2]
                     st)))
      = documents_indexed (fst (get_stats st)) + 1
      /\
      documents_indexed
        (fst (get_stats
                (run [OpStore gen_fail cid2 text2; OpStore gen_ok cid1 text1]
                     st)))
      = documents_indexed (fst (get_stats st)) + 1)
  /\
  (forall gen_ok gen_fail cid1 cid2 text1 text2 vs,
      Chunker.chunk_text_smart text1 500 100 <> [] ->
      gen_ok (Chunker.chunk_text_smart text1 500 100) = Some vs ->
      gen_fail (Chunker.chunk_text_smart text2 500 100) = None ->
      documents_indexed
        (fst (get_stats
                (run [OpStore gen_ok cid1 text1; OpStore gen_fail cid2 text2]
                     empty_store))) = 1).
Proof.
  assert (forall gen cid text st,
             gen (Chunker.chunk_text_smart text 500 100) = None ->
             _document_uploads (snd (store_document gen cid text st))
             = _document_uploads st) as Hfail.
  { intros gen cid text st Hg. unfold store_document.
    destruct (setdefault cid (_store st)) as [c0 m].
    rewrite Hg.
    by destruct (truthy (Chunker.chunk_text_smart text 500 100)). }
  assert (forall gen cid text vs st,
             Chunker.chunk_text_smart text 500 100 <> [] ->
             gen (Chunker.chunk_text_smart text 500 100) = Some vs ->
             _document_uploads (snd (store_document gen cid text st))
             = _document_uploads st + 1) as Hok.
  { intros gen cid text vs st Hne Hg. unfold store_document.
    destruct (setdefault cid (_store st)) as [c0 m].
    rewrite Hg.
    destruct (Chunker.chunk_text_smart text 500 100); [done|reflexivity]. }
  assert (forall gen_ok gen_fail cid1 cid2 text1 text2 vs st,
      Chunker.chunk_text_smart text1 500 100 <> [] ->
      gen_ok (Chunker.chunk_text_smart text1 500 100) = Some vs ->
      gen_fail (Chunker.chunk_text_smart text2 500 100) = None ->
      documents_indexed
        (fst (get_stats
                (run [OpStore gen_ok cid1 text1; OpStore gen_fail cid2 text2]
                     st)))
      = documents_indexed (fst (get_stats st)) + 1) as Hboth.
  { intros. simpl. rewrite Hfail by assumption. eapply Hok; eassumption. }
  split; [|split].
  - intros gen cid text st Hg st'. split.
    + subst st'. unfold store_document.
      destruct (setdefault cid (_store st)) as [c0 m].
      rewrite Hg.
      destruct (truthy (Chunker.chunk_text_smart text 500 100)); simpl;
        (eexists; split; [apply lookup_insert_eq|by repeat split]).
    + simpl. subst st'. by apply Hfail.
  - intros gen_ok gen_fail cid1 cid2 text1 text2 vs st Hne Hok' Hf. split.
    + eapply Hboth; eassumption.
    + simpl. erewrite Hok by eassumption. simpl. by rewrite Hfail.
  - intros. erewrite Hboth by eassumption. reflexivity.
Qed.

Lemma embedding_failure_not_counted_witness :
  documents_indexed
    (fst (get_stats
            (run [OpStore unit_embedder (s "c1") (s "Paris is in France.");
                  OpStore failing_embedder (s "c1") (s "Berlin.")]
                 empty_store))) = 1.
Proof.
  apply (proj2 (proj2 embedding_failure_not_counted))
    with (vs := [[1%Q]]).
  - vm_compute. discriminate.
  - vm_compute. reflexivity.
  - reflexivity.
Defined.

(** C8.  For an unknown identifier the reads return the empty view (empty
    history, no chunks, absent vectors); [append_message] and
    [store_document] create the conversation, empty but for what they
    write; [ensure_conversation] adds an empty conversation and changes
    nothing else.  On a known identifier [ensure_conversation] leaves the
    store as it is, and in both cases it returns the identifier it was
    given. *)
Theorem unknown_identifier_handling
    (gen : list str -> option (list Vec)) (cid : str)
    (st : ConversationStore) :
  (_store st !! cid = None ->
     fst (get_history cid st) = []
     /\ fst (get_document_chunks cid st) = []
     /\ fst (get_chunk_embeddings cid st) = None
     /\ (forall r t,
           _store (snd (append_message cid r t st)) !! cid
           = Some {| history := [ {| role := r; content := t |} ];
                     document_text := [];
                     document_chunks := [];
                     chunk_embeddings := None |})
     /\ (forall text,
           exists c,
             _store (snd (store_document gen cid text st)) !! cid = Some c
             /\ history c = history new_conversation
             /\ document_text c = text
             /\ document_chunks c = Chunker.chunk_text_smart text 500 100)
     /\ snd (ensure_conversation cid st)
        = {| _store := <[cid := new_conversation]> (_store st);
             _document_uploads := _document_uploads st;
             _query_count := _query_count st |})
  /\ (is_Some (_store st !! cid) ->
      snd (ensure_conversation cid st) = st)
  /\ fst (ensure_conversation cid st) = cid.
Proof.
  split; [|split].
  - intros Hn. unfold get_history, get_document_chunks,
      get_chunk_embeddings, get_or_new. rewrite Hn. simpl.
    repeat split.
    + intros r t. unfold append_message, setdefault. rewrite Hn. simpl.
      apply lookup_insert_eq.
    + intros text. unfold store_document, setdefault. rewrite Hn.
      destruct (truthy (Chunker.chunk_text_smart text 500 100));
        [destruct (gen _)|]; simpl;
        (eexists; split; [apply lookup_insert_eq|by repeat split]).
    + unfold ensure_conversation. by rewrite Hn.
  - intros [c Hc]. unfold ensure_conversation. by rewrite Hc.
  - unfold ensure_conversation. by destruct (_store st !! cid).
Qed.

Lemma unknown_identifier_handling_witness :
  (_store empty_store !! s "nobody" = None
   /\ fst (get_history (s "nobody") empty_store) = [])
  /\ (is_Some (_store (snd (ensure_conversation (s "c1") empty_store))
                !! s "c1")
      /\ snd (ensure_conversation (s "c1")
                (snd (ensure_conversation (s "c1") empty_store)))
         = snd (ensure_conversation (s "c1") empty_store)).
Proof.
  split.
  - assert (_store empty_store !! s "nobody" = None) as Hn
      by (vm_compute; reflexivity).
    split; [exact Hn|].
    exact (proj1 (proj1 (unknown_identifier_handling
                           unit_embedder (s "nobody") empty_store) Hn)).
  - assert (is_Some (_store (snd (ensure_conversation (s "c1") empty_store))
                       !! s "c1")) as Hs
      by (eexists; vm_compute; reflexivity).
    split; [exact Hs|].
    exact (proj1 (proj2 (unknown_identifier_handling
             unit_embedder (s "c1")
             (snd (ensure_conversation (s "c1") empty_store)))) Hs).
Defined.

(** C10.  [get_history], [get_document_chunks], [get_chunk_embeddings] and
    [get_stats] leave the store as they found it: the same conversations
    under the same identifiers (none is created for an unknown
    identifier) and the same three counters. *)
Theorem reads_do_not_modify (cid : str) (st : ConversationStore) :
  Forall
    (fun st' =>
       st' = st
       /\ dom (_store st') = dom (_store st)
       /\ _store st' !! cid = _store st !! cid
       /\ fst (get_stats st') = fst (get_stats st))
    [ snd (get_history cid st);
      snd (get_document_chunks cid st);
      snd (get_chunk_embeddings cid st);
      snd (get_stats st) ].
Proof.
  unfold get_history, get_document_chunks, get_chunk_embeddings, get_stats.
  simpl. repeat constructor.
Qed.

End StoreProps.

Module PyStrProps.
Import PyStr.

Lemma char_eqb_eq a b : char_eqb a b = true <-> a = b.
Proof. apply Ascii.eqb_eq. Qed.

Lemma str_eqb_eq x y : str_eqb x y = true <-> x = y.
Proof.
  revert y. induction x as [|a x IH]; intros [|b y]; simpl;
    try (split; [done|discriminate]); [done|].
  rewrite andb_true_iff, char_eqb_eq, IH. split.
  - by intros [-> ->].
  - by intros [= -> ->].
Qed.

Lemma startswith_spec x y :
  startswith x y = true <-> exists post, y = x ++ post.
Proof.
  revert y. induction x as [|a x IH]; intros y; simpl.
  - split; [intros _; by exists y|done].
  - destruct y as [|b y].
    + split; [done|]. intros [post H]. discriminate.
    + rewrite andb_true_iff, char_eqb_eq, IH. split.
      * intros [-> [post ->]]. by exists post.
      * intros [post [= -> ->]]. split; [done|by exists post].
Qed.

(** [contains] decides the substring relation. *)
Lemma contains_spec x y :
  contains x y = true <-> exists pre post, y = pre ++ x ++ post.
Proof.
  induction y as [|b y IH]; simpl.
  - rewrite orb_false_r, startswith_spec. split.
    + intros [post ->]. by exists [], post.
    + intros (pre & post & H). destruct pre; [by exists post|done].
  - rewrite orb_true_iff, startswith_spec, IH. split.
    + intros [[post ->]|(pre & post & ->)].
      * by exists [], post.
      * by exists (b :: pre), post.
    + intros (pre & post & H). destruct pre as [|c pre]; simpl in H.
      * left. by exists post.
      * right. injection H as -> ->. by exists pre, post.
Qed.

End PyStrProps.

Module KeywordProps.
Import PyStr PySlice PySort PySortProps PyStrProps Store Rag KeywordSpec.

Lemma max_perm l l' :
  Permutation l l' -> fold_right Nat.max 0 l = fold_right Nat.max 0 l'.
Proof.
  induction 1; simpl; try lia.
Qed.

Lemma max_filter_pos {B} (l : list (nat * B)) :
  fold_right Nat.max 0 (map fst (List.filter (fun p => 0 <? fst p) l))
  = fold_right Nat.max 0 (map fst l).
Proof.
  induction l as [|[n b] l IH]; simpl; [reflexivity|].
  destruct (0 <? n) eqn:E; simpl; [lia|].
  apply Nat.ltb_ge in E. lia.
Qed.

Lemma max_upper l n : In n l -> n <= fold_right Nat.max 0 l.
Proof.
  induction l as [|x l IH]; simpl; [done|].
  intros [->|H]; [lia|]. specialize (IH H). lia.
Qed.

Lemma scored_chunks_perm question chunks :
  Permutation (scored_chunks question chunks)
    (List.filter (fun p => 0 <? fst p) (all_scored question chunks)).
Proof. apply sort_perm. Qed.

Lemma scored_chunks_in question chunks p :
  In p (scored_chunks question chunks) ->
  In (snd p) chunks /\ fst p = lexical_score question (snd p)
  /\ 0 < fst p.
Proof.
  intros H. eapply Permutation_in in H; [|apply scored_chunks_perm].
  apply filter_In in H as [H Hp].
  apply in_map_iff in H as (c & <- & Hc). simpl in *.
  apply Nat.ltb_lt in Hp. auto.
Qed.

Lemma scored_chunks_sorted question chunks :
  StronglySorted (fun x y => fst y <= fst x)
    (scored_chunks question chunks).
Proof.
  eapply StronglySorted_impl; cycle 1.
  - apply sort_sorted.
    + intros x y H. simpl in *. apply Nat.leb_gt in H.
      apply Nat.leb_le. lia.
    + intros x y z H1 H2. simpl in *.
      apply Nat.leb_le in H1, H2. apply Nat.leb_le. lia.
  - intros x y H. simpl in H. by apply Nat.leb_le.
Qed.

Lemma scored_chunks_max question chunks :
  scored_chunks question chunks <> [] ->
  max_score (scored_chunks question chunks) = best_score question chunks.
Proof.
  intros Hne. unfold max_score.
  destruct (scored_chunks question chunks) eqn:E; [done|].
  rewrite <- E.
  rewrite (max_perm _ _ (Permutation_map fst (scored_chunks_perm _ _))).
  rewrite max_filter_pos. unfold all_scored, best_score.
  by rewrite map_map.
Qed.

Lemma scored_chunks_nonempty question chunks :
  (exists chunk, In chunk chunks /\ 0 < lexical_score question chunk) <->
  scored_chunks question chunks <> [].
Proof.
  split.
  - intros (c & Hc & Hpos) H.
    assert (In (lexical_score question c, c)
              (List.filter (fun p => 0 <? fst p)
                 (all_scored question chunks))) as Hin.
    { apply filter_In. split.
      - apply in_map_iff. by exists c.
      - by apply Nat.ltb_lt. }
    eapply Permutation_in in Hin;
      [|symmetry; apply scored_chunks_perm].
    rewrite H in Hin. destruct Hin.
  - intros Hne. destruct (scored_chunks question chunks) as [|p l] eqn:E;
      [done|].
    assert (In p (scored_chunks question chunks)) as Hin
      by (rewrite E; simpl; auto).
    apply scored_chunks_in in Hin as (Hc & Hs & Hp).
    exists (snd p). split; [done|]. by rewrite <- Hs.
Qed.

Lemma scored_chunks_empty question chunks :
  (forall chunk, In chunk chunks -> lexical_score question chunk = 0) ->
  scored_chunks question chunks = [].
Proof.
  intros H. destruct (scored_chunks question chunks) as [|p l] eqn:E;
    [reflexivity|].
  assert (scored_chunks question chunks <> []) as Hne by (by rewrite E).
  apply scored_chunks_nonempty in Hne as (c & Hc & Hp).
  rewrite (H c Hc) in Hp. lia.
Qed.

Lemma normalize_range a b :
  0 < a <= b ->
  normalize a b = (inject_Z (Z.of_nat a) / inject_Z (Z.of_nat b))%Q
  /\ (0 < normalize a b)%Q /\ (normalize a b <= 1)%Q.
Proof.
  intros [Ha Hb]. unfold normalize.
  destruct (b =? 0) eqn:E; [apply Nat.eqb_eq in E; lia|].
  split; [reflexivity|].
  assert (0 < inject_Z (Z.of_nat b))%Q as Hbq.
  { rewrite <- (Zlt_Qlt 0). lia. }
  split.
  - apply Qlt_shift_div_l; [exact Hbq|]. rewrite Qmult_0_l.
    rewrite <- (Zlt_Qlt 0). lia.
  - apply Qle_shift_div_r; [exact Hbq|]. rewrite Qmult_1_l.
    rewrite <- Zle_Qle. lia.
Qed.

Section Engine.
Variable chat_completion : list Message -> Q -> Z -> option str.

Lemma keyword_search_evidence question chunks history prev :
  scored_chunks question chunks <> [] ->
  snd (_fallback_keyword_search chat_completion question chunks
         history prev)
  = retrieved_of (scored_chunks question chunks).
Proof.
  intros Hne. unfold _fallback_keyword_search.
  destruct (scored_chunks question chunks) as [|p l] eqn:E; [done|].
  simpl. by destruct (chat_completion _ _ _).
Qed.

(** C6.  When some chunk has a lexical score above zero, the keyword
    fallback engine returns at least one and at most three entries (its
    [top_k]); each is a stored chunk carrying its raw score divided by the
    largest raw score over all the chunks, a number in (0, 1]; and the
    entries come in descending order of raw score.  This holds whether the
    generation call succeeds or fails. *)
Theorem keyword_scores_normalized
    (question : str) (chunks : list str) (history : list Message)
    (prev : option str) :
  (exists chunk, In chunk chunks /\ 0 < lexical_score question chunk) ->
  let evidence :=
    snd (_fallback_keyword_search chat_completion question chunks
           history prev) in
  let raw := fun e : str * Q => lexical_score question (fst e) in
  let best := fold_right Nat.max 0 (map (lexical_score question) chunks) in
  evidence <> []
  /\ length evidence <= 3
  /\ Forall (fun e =>
               In (fst e) chunks
               /\ 0 < raw e <= best
               /\ snd e = (inject_Z (Z.of_nat (raw e))
                           / inject_Z (Z.of_nat best))%Q
               /\ (0 < snd e)%Q /\ (snd e <= 1)%Q) evidence
  /\ StronglySorted (fun a b => raw b <= raw a) evidence.
Proof.
  intros Hex evidence raw best. subst evidence.
  apply scored_chunks_nonempty in Hex as Hne.
  rewrite keyword_search_evidence by exact Hne.
  unfold retrieved_of. rewrite scored_chunks_max by exact Hne.
  fold (best_score question chunks). rewrite slice_to_nonneg by lia.
  change (Z.to_nat 3) with 3.
  set (scored := scored_chunks question chunks) in *.
  assert (forall p, In p scored ->
             In (snd p) chunks /\ fst p = lexical_score question (snd p)
             /\ 0 < fst p) as Hin by apply scored_chunks_in.
  pose proof (scored_chunks_sorted question chunks) as Hs.
  fold scored in Hs.
  repeat split.
  - destruct scored; [done|discriminate].
  - rewrite length_map. apply firstn_le_length.
  - rewrite Forall_map. apply Forall_take. rewrite Forall_forall.
    intros p Hp. destruct (Hin p Hp) as (Hc & Hf & Hpos). simpl.
    assert (raw (snd p, normalize (fst p) (best_score question chunks))
            = fst p) as Hr by (unfold raw; simpl; congruence).
    assert (fst p <= best_score question chunks) as Hle.
    { rewrite Hf. apply max_upper, in_map, Hc. }
    destruct (normalize_range (fst p) (best_score question chunks))
      as (He & H0 & H1); [lia|].
    rewrite Hr. unfold best, best_score in *. repeat split; auto; lia.
  - apply StronglySorted_map, StronglySorted_firstn.
    clearbody scored. clear Hne.
    induction Hs as [|p l Hs IH Hp]; constructor.
    + apply IH. intros; apply Hin; simpl; auto.
    + rewrite Forall_forall in *. intros r Hr. unfold raw. simpl.
      destruct (Hin p) as (_ & <- & _); [simpl; auto|].
      destruct (Hin r) as (_ & <- & _); [simpl; auto|].
      by apply Hp.
Qed.
End Engine.

Lemma _is_follow_up_question_spec question :
  _is_follow_up_question question = true
  <-> is_follow_up (lower (strip question)).
Proof.
  unfold _is_follow_up_question, is_follow_up.
  set (q := lower (strip question)).
  destruct q as [|c q'] eqn:E; simpl truthy; cbv iota; simpl negb.
  - split; [done|]. by intros [H _].
  - rewrite <- E. rewrite orb_true_iff, existsb_exists, Nat.leb_le.
    split.
    + intros H. split; [by rewrite E|].
      destruct H as [(cue & Hin & Hc)|H]; [left|by right].
      apply contains_spec in Hc as (pre & post & Hq).
      exists cue, pre, post. split; [|exact Hq].
      unfold follow_up_cues in Hin. unfold claimed_phrases.
      simpl in *. tauto.
    + intros [_ [(cue & pre & post & Hin & Hq)|H]]; [left|by right].
      exists cue. split.
      * unfold follow_up_cues. unfold claimed_phrases in Hin.
        simpl in *. tauto.
      * apply contains_spec. by exists pre, post.
Qed.

Section Orchestrator.
Variable row_similarity : Vec -> Vec -> Q.
Variable format_2f : Q -> str.
Variable generate_embeddings : list str -> option (list Vec).
Variable chat_completion : list Message -> Q -> Z -> option str.

Lemma keyword_no_match
    (question : str) (chunks : list str) (history : list Message)
    (prev : option str) :
  (forall chunk, In chunk chunks -> lexical_score question chunk = 0) ->
  let result :=
    _fallback_keyword_search chat_completion question chunks history
      prev in
  let follow_up := is_follow_up (lower (strip question)) in
  snd result = []
  /\ (_is_follow_up_question question = true <-> follow_up)
  /\ (follow_up ->
      fst result = follow_up_answer prev
      /\ (forall a, prev = Some a -> a <> [] ->
            exists pre post, fst result = pre ++ a ++ post))
  /\ (~ follow_up -> fst result = not_found_answer).
Proof.
  intros Hz result follow_up. subst result follow_up.
  unfold _fallback_keyword_search.
  rewrite (scored_chunks_empty _ _ Hz). simpl.
  pose proof (_is_follow_up_question_spec question) as Hs.
  destruct (_is_follow_up_question question); simpl;
    (split; [reflexivity|split; [exact Hs|split]]).
  - intros _. split; [reflexivity|].
    intros a -> Ha.
    exists (s "I've already shared the available insights from the document. "
            ++ s "Previous answer:" ++ nl),
           (nl ++ nl
            ++ s "If you need something specific, try asking about a particular section or topic.").
    unfold follow_up_answer, given, text_of.
    destruct a as [|c a]; [done|]. unfold truthy.
    rewrite <- !app_assoc. reflexivity.
  - intros H. exfalso. apply H, Hs. reflexivity.
  - intros H. apply Hs in H. discriminate.
  - intros _. reflexivity.
Qed.

(** The previous answer is the content of the last assistant turn. *)
Lemma recent_assistant_answer (before : list Message) (msg : Message)
    (after : list Message) :
  role msg = s "assistant" ->
  Forall (fun m => role m <> s "assistant") after ->
  _get_recent_assistant_answer (before ++ msg :: after)
  = Some (content msg).
Proof.
  intros Hr Ha. unfold _get_recent_assistant_answer.
  rewrite rev_app_distr. simpl rev. rewrite <- app_assoc. simpl app.
  assert (forall l l' : list Message,
             Forall (fun m => role m <> s "assistant") l ->
             List.find (fun m => str_eqb (role m) (s "assistant"))
               (rev l ++ l')
             = List.find (fun m => str_eqb (role m) (s "assistant")) l')
    as Hskip.
  { intros l l' Hl. apply Forall_rev in Hl.
    induction Hl as [|m r Hm _ IH]; [reflexivity|].
    cbn [app List.find].
    destruct (str_eqb (role m) (s "assistant")) eqn:E; [|exact IH].
    apply str_eqb_eq in E. done. }
  rewrite Hskip by exact Ha. cbn [List.find].
  assert (str_eqb (role msg) (s "assistant") = true) as ->
    by (by apply str_eqb_eq).
  reflexivity.
Qed.

(** C2.  When no chunk has a lexical score above zero, the keyword fallback
    engine returns no evidence.  The question counts as a follow-up exactly
    when, trimmed and lower-cased, it is not empty and either contains one
    of the eight fixed phrases or has at most four words.  A follow-up is
    answered by the restatement of the previous answer, which contains that
    answer when there is one (the content of the last assistant turn of
    the history, when the caller passes it on); any other question is
    answered that no relevant information was found. *)
Theorem keyword_no_match_follow_up
    (question : str) (chunks : list str) (history : list Message)
    (prev : option str) :
  (forall chunk, In chunk chunks -> lexical_score question chunk = 0) ->
  let result :=
    _fallback_keyword_search chat_completion question chunks history
      prev in
  let follow_up := is_follow_up (lower (strip question)) in
  snd result = []
  /\ (_is_follow_up_question question = true <-> follow_up)
  /\ (follow_up ->
      fst result = follow_up_answer prev
      /\ (forall a, prev = Some a -> a <> [] ->
            exists pre post, fst result = pre ++ a ++ post)
      /\ (forall before msg after,
            history = before ++ msg :: after ->
            role msg = s "assistant" ->
            Forall (fun m => role m <> s "assistant") after ->
            content msg <> [] ->
            prev = _get_recent_assistant_answer history ->
            exists pre post, fst result = pre ++ content msg ++ post))
  /\ (~ follow_up -> fst result = not_found_answer).
Proof.
  intros Hz result follow_up.
  destruct (keyword_no_match question chunks history prev Hz)
    as (He & Hf & Hy & Hn).
  split; [exact He|]. split; [exact Hf|]. split; [|exact Hn].
  intros Hfu. destruct (Hy Hfu) as [Ha Hc].
  split; [exact Ha|]. split; [exact Hc|].
  intros before msg after -> Hr Hafter Hne Hp.
  apply Hc; [|exact Hne].
  rewrite Hp. by apply recent_assistant_answer.
Qed.

Lemma truthy_true {A} (l : list A) : l <> [] -> truthy l = true.
Proof. by destruct l. Qed.

(** [chat_with_rag] in terms of what the three reads return. *)
Lemma chat_with_rag_reads (cid question : str) (st : ConversationStore) :
  chat_with_rag row_similarity format_2f generate_embeddings
    chat_completion cid question st
  = let hist := fst (get_history cid st) in
    let prev := _get_recent_assistant_answer hist in
    let chunks := fst (get_document_chunks cid st) in
    let emb := fst (get_chunk_embeddings cid st) in
    if negb (truthy chunks) then (no_document_answer, [])
    else
      match emb with
      | None =>
          _fallback_keyword_search chat_completion question chunks hist
            prev
      | Some _ =>
          match query_embedding_of generate_embeddings question with
          | None =>
              _fallback_keyword_search chat_completion question chunks
                hist prev
          | Some qv =>
              let similar :=
                Embeddings.find_similar_chunks row_similarity qv emb
                  chunks 4 (2 # 10)%Q in
              if negb (truthy similar)
              then _fallback_keyword_search chat_completion question
                     chunks hist prev
              else
                match chat_completion
                        (semantic_messages format_2f question similar
                           hist prev) (3 # 10)%Q 1000%Z with
                | Some answer => (answer, similar)
                | None => (semantic_failure_answer similar, similar)
                end
          end
      end.
Proof. reflexivity. Qed.

(** C7.  When the generation call fails with a service error:
    on the semantic path [chat_with_rag] answers with the fixed
    introduction followed by the first two retrieved chunks joined by blank
    lines, and returns all the retrieved chunks as evidence; on the keyword
    path it answers with the generic message and returns the scored chunks
    with their normalized scores as evidence, a non-empty list of exactly
    the chunks that were retrieved. *)
Theorem generation_failure_keeps_evidence
    (cid question : str) (st : ConversationStore) :
  let hist := fst (get_history cid st) in
  let prev := _get_recent_assistant_answer hist in
  let chunks := fst (get_document_chunks cid st) in
  let emb := fst (get_chunk_embeddings cid st) in
  let result :=
    chat_with_rag row_similarity format_2f generate_embeddings
      chat_completion cid question st in
  (forall qv,
      let similar :=
        Embeddings.find_similar_chunks row_similarity qv emb chunks
          4 (2 # 10)%Q in
      chunks <> [] -> emb <> None ->
      query_embedding_of generate_embeddings question = Some qv ->
      similar <> [] ->
      chat_completion
        (semantic_messages format_2f question similar hist prev)
        (3 # 10)%Q 1000%Z = None ->
      result
      = (s "I found relevant information but couldn't process it with AI. Here are the most relevant excerpts:"
         ++ nl ++ nl ++ join (nl ++ nl) (map fst (firstn 2 similar)),
         similar))
  /\
  (let scored := scored_chunks question chunks in
   keyword_path row_similarity generate_embeddings question chunks emb ->
   (exists chunk, In chunk chunks /\ 0 < lexical_score question chunk) ->
   chat_completion
     (keyword_messages question (map snd (firstn 3 scored)) hist prev)
     (3 # 10)%Q 800%Z = None ->
   result
   = (s "I found relevant information but couldn't process it. Please check your API configuration.",
      map (fun p => (snd p, normalize (fst p) (max_score scored)))
          (firstn 3 scored))
   /\ snd result <> []
   /\ map fst (snd result) = map snd (firstn 3 scored)).
Proof.
  intros hist prev chunks emb result. subst result.
  rewrite chat_with_rag_reads. cbv zeta.
  fold hist. fold prev. fold chunks. fold emb.
  clearbody prev. clearbody hist chunks emb. split.
  - intros qv. destruct emb as [rows|]; [|by intros _ He].
    set (similar := Embeddings.find_similar_chunks _ _ _ _ _ _).
    intros Hc _ Hq Hs Hfail.
    rewrite (truthy_true chunks Hc). cbn [negb].
    rewrite Hq. cbv beta iota. fold similar.
    rewrite (truthy_true similar Hs). cbn [negb].
    rewrite Hfail. unfold semantic_failure_answer.
    rewrite slice_to_nonneg by lia. change (Z.to_nat 2) with 2.
    rewrite (app_assoc (s _) (s _)). reflexivity.
  - set (scored := scored_chunks question chunks).
    intros [Hc Hp] Hex Hfail.
    rewrite (truthy_true chunks Hc). cbn [negb].
    assert (match emb with
            | None =>
                _fallback_keyword_search chat_completion question chunks
                  hist prev
            | Some _ =>
                match query_embedding_of generate_embeddings question with
                | None =>
                    _fallback_keyword_search chat_completion question
                      chunks hist prev
                | Some qv =>
                    if negb
                         (truthy
                            (Embeddings.find_similar_chunks
                               row_similarity qv emb chunks 4 (2 # 10)%Q))
                    then _fallback_keyword_search chat_completion
                           question chunks hist prev
                    else
                      match chat_completion
                              (semantic_messages format_2f question
                                 (Embeddings.find_similar_chunks
                                    row_similarity qv emb chunks 4
                                    (2 # 10)%Q) hist prev)
                              (3 # 10)%Q 1000%Z with
                      | Some answer =>
                          (answer,
                           Embeddings.find_similar_chunks row_similarity
                             qv emb chunks 4 (2 # 10)%Q)
                      | None =>
                          (semantic_failure_answer
                             (Embeddings.find_similar_chunks
                                row_similarity qv emb chunks 4
                                (2 # 10)%Q),
                           Embeddings.find_similar_chunks row_similarity
                             qv emb chunks 4 (2 # 10)%Q)
                      end
                end
            end
            = _fallback_keyword_search chat_completion question chunks
                hist prev) as ->.
    { destruct Hp as [->|[Hq|(qv & Hq & Hs)]].
      - reflexivity.
      - rewrite Hq. by destruct emb.
      - rewrite Hq. destruct emb; [|reflexivity]. by rewrite Hs. }
    apply scored_chunks_nonempty in Hex as Hne. fold scored in Hne.
    assert (_fallback_keyword_search chat_completion question chunks
              hist prev
            = (keyword_failure_answer,
               map (fun p => (snd p, normalize (fst p) (max_score scored)))
                 (firstn 3 scored))) as ->.
    { unfold _fallback_keyword_search. fold scored.
      rewrite !slice_to_nonneg by lia. change (Z.to_nat 3) with 3.
      assert (truthy (map snd (firstn 3 scored)) = true) as ->
        by (destruct scored; [done|reflexivity]).
      cbn [negb]. rewrite Hfail.
      unfold retrieved_of. rewrite slice_to_nonneg by lia.
      reflexivity. }
    split; [reflexivity|]. split.
    + simpl. destruct scored; [done|discriminate].
    + simpl. rewrite map_map. reflexivity.
Qed.
End Orchestrator.

Lemma generation_failure_keeps_evidence_witness :
  fst (get_document_chunks (s "c1") sample_store) <> []
  /\ fst (get_chunk_embeddings (s "c1") sample_store) <> None
  /\ query_embedding_of StoreSpec.unit_embedder (s "capital?")
     = Some [1%Q]
  /\ snd (chat_with_rag EngineSpec.plain_dot fixed_format
            StoreSpec.unit_embedder failing_chat (s "c1") (s "capital?")
            sample_store)
     = [(s "Paris is the capital of France.", 1%Q)].
Proof.
  assert (fst (get_document_chunks (s "c1") sample_store) <> []) as H1
    by (vm_compute; discriminate).
  assert (fst (get_chunk_embeddings (s "c1") sample_store) <> None) as H2
    by (vm_compute; discriminate).
  assert (query_embedding_of StoreSpec.unit_embedder (s "capital?")
          = Some [1%Q]) as H3 by reflexivity.
  split; [exact H1|]. split; [exact H2|]. split; [exact H3|].
  rewrite (proj1 (generation_failure_keeps_evidence EngineSpec.plain_dot
                    fixed_format StoreSpec.unit_embedder failing_chat
                    (s "c1") (s "capital?") sample_store)
             [1%Q] H1 H2 H3).
  - vm_compute. reflexivity.
  - vm_compute. discriminate.
  - reflexivity.
Defined.

Lemma capitals_unmatched :
  forall chunk, In chunk capitals ->
                lexical_score (s "What else?") chunk = 0.
Proof.
  intros chunk [<-|[<-|[]]]; vm_compute; reflexivity.
Defined.

Lemma capitals_matched :
  exists chunk, In chunk capitals
                /\ 0 < lexical_score (s "capital of France") chunk.
Proof.
  exists (s "Paris is the capital of France."). split.
  - simpl. auto.
  - vm_compute. lia.
Defined.

Lemma keyword_no_match_follow_up_witness :
  (forall chunk, In chunk capitals ->
                 lexical_score (s "What else?") chunk = 0)
  /\ snd (_fallback_keyword_search failing_chat (s "What else?") capitals
            [] (Some (s "Paris."))) = [].
Proof.
  split; [exact capitals_unmatched|].
  exact (proj1 (keyword_no_match_follow_up failing_chat (s "What else?")
                  capitals [] (Some (s "Paris.")) capitals_unmatched)).
Defined.

Lemma keyword_scores_normalized_witness :
  (exists chunk, In chunk capitals
                 /\ 0 < lexical_score (s "capital of France") chunk)
  /\ length (snd (_fallback_keyword_search failing_chat
                    (s "capital of France") capitals [] None)) <= 3.
Proof.
  split; [exact capitals_matched|].
  exact (proj1 (proj2 (keyword_scores_normalized failing_chat
                         (s "capital of France") capitals [] None
                         capitals_matched))).
Defined.

End KeywordProps.

Module ChunkerProps.
Import PyStr PySlice PyStrProps Chunker ChunkerSpec.

(** *** Splitting and joining *)

Lemma split_go_skip sep x : forall k,
  k <= length x -> split_go sep k x = split_go sep 0 (skipn k x).
Proof.
  induction x as [|c x IH]; intros [|k] Hk; simpl in *;
    try reflexivity; try lia.
  apply IH. lia.
Qed.

Lemma split_go_nonempty sep x k : split_go sep k x <> [].
Proof.
  revert k. induction x as [|c x IH]; intros k; simpl; [done|].
  destruct k; [|apply IH].
  destruct (startswith sep (c :: x)); [done|].
  specialize (IH 0). by destruct (split_go sep 0 x).
Qed.

Lemma join_cons sep p ps :
  ps <> [] -> join sep (p :: ps) = p ++ sep ++ join sep ps.
Proof. by destruct ps. Qed.

Lemma join_cons_head sep c ps :
  ps <> [] -> join sep (cons_head c ps) = c :: join sep ps.
Proof. destruct ps as [|p [|p' ps]]; done. Qed.

Lemma join_split_sep sep x :
  sep <> [] -> join sep (split_sep sep x) = x.
Proof.
  intros Hsep. unfold split_sep.
  remember (length x) as n eqn:Hn.
  revert x Hn. induction n as [n IH] using lt_wf_ind. intros x Hn.
  destruct x as [|c x]; [reflexivity|]. simpl split_go.
  destruct (startswith sep (c :: x)) eqn:E.
  - apply startswith_spec in E as [post E].
    destruct sep as [|a sep']; [done|]. simpl in E.
    injection E as -> ->.
    replace (length (a :: sep') - 1) with (length sep') by (simpl; lia).
    rewrite split_go_skip by (rewrite length_app; lia).
    rewrite skipn_app, Nat.sub_diag, skipn_all, skipn_0, app_nil_l.
    rewrite join_cons by apply split_go_nonempty.
    rewrite (IH (length post)); [reflexivity| |reflexivity].
    subst n. simpl. rewrite length_app. lia.
  - rewrite join_cons_head by apply split_go_nonempty.
    f_equal. apply (IH (length x)); [subst n; simpl; lia|reflexivity].
Qed.

Lemma split_sep_absent sep x :
  contains sep x = false -> split_sep sep x = [x].
Proof.
  unfold split_sep. induction x as [|c x IH]; simpl; [done|].
  intros H. apply orb_false_iff in H as [H1 H2].
  rewrite H1, (IH H2). reflexivity.
Qed.

Lemma join_length sep ps :
  length (join sep ps) = total ps + length sep * pred (length ps).
Proof.
  induction ps as [|p ps IH]; [simpl; lia|].
  destruct ps as [|p' ps].
  - unfold total. simpl. lia.
  - rewrite join_cons by done. rewrite !length_app, IH.
    unfold total. simpl. lia.
Qed.

Lemma join_snoc sep ps p :
  ps <> [] -> join sep (ps ++ [p]) = join sep ps ++ sep ++ p.
Proof.
  induction ps as [|p0 ps IH]; [done|]. intros _.
  destruct ps as [|p1 ps]; [reflexivity|].
  change ((p0 :: p1 :: ps) ++ [p]) with (p0 :: ((p1 :: ps) ++ [p])).
  rewrite join_cons by (simpl; discriminate).
  rewrite IH by done. rewrite (join_cons sep p0 (p1 :: ps)) by done.
  by rewrite <- !app_assoc.
Qed.

(** *** Trimming *)

Lemma lstrip_length x : length (lstrip x) <= length x.
Proof.
  induction x as [|c x IH]; simpl; [lia|].
  destruct (isspace c); simpl; lia.
Qed.

Lemma strip_length x : length (strip x) <= length x.
Proof.
  unfold strip, rstrip.
  etransitivity; [apply lstrip_length|].
  rewrite length_rev.
  etransitivity; [apply lstrip_length|]. by rewrite length_rev.
Qed.

Lemma lstrip_nil_iff x : lstrip x = [] <-> blank x.
Proof.
  unfold blank. induction x as [|c x IH]; simpl.
  - split; [constructor|done].
  - destruct (isspace c) eqn:E.
    + rewrite IH. split; [by constructor|]. by inversion 1.
    + split; [done|]. inversion 1; congruence.
Qed.

Lemma blank_rev x : blank (rev x) <-> blank x.
Proof.
  unfold blank. rewrite !Forall_forall.
  split; intros H c Hc; apply H; by apply in_rev in Hc || apply in_rev.
Qed.

Lemma lstrip_blank x : blank x -> lstrip x = [].
Proof. apply lstrip_nil_iff. Qed.

Lemma lstrip_snoc w c :
  isspace c = false -> lstrip (w ++ [c]) = lstrip w ++ [c].
Proof.
  intros Hc. induction w as [|a w IH]; simpl.
  - by rewrite Hc.
  - destruct (isspace a); [exact IH|reflexivity].
Qed.

Lemma lstrip_starts_clean x : lstrip x <> [] -> starts_clean (lstrip x).
Proof.
  induction x as [|c x IH]; simpl; [done|].
  destruct (isspace c) eqn:E; [exact IH|].
  intros _. by exists c, x.
Qed.

Lemma starts_clean_lstrip x : starts_clean x -> lstrip x = x.
Proof. intros (c & x' & -> & Hc). simpl. by rewrite Hc. Qed.

Lemma lstrip_blank_nil x : blank (lstrip x) -> lstrip x = [].
Proof.
  intros Hb. destruct (lstrip x) as [|c y] eqn:E; [reflexivity|].
  assert (starts_clean (c :: y)) as (c' & y' & [= <- <-] & Hc).
  { rewrite <- E. apply lstrip_starts_clean. by rewrite E. }
  inversion Hb; congruence.
Qed.

Lemma strip_nil_iff x : strip x = [] <-> blank x.
Proof.
  unfold strip, rstrip. split.
  - intros H. apply lstrip_nil_iff in H.
    apply (proj1 (blank_rev _)) in H.
    apply lstrip_blank_nil in H. apply lstrip_nil_iff in H.
    by apply (proj1 (blank_rev _)) in H.
  - intros H. apply (proj2 (blank_rev _)) in H.
    apply lstrip_blank in H. by rewrite H.
Qed.

Lemma strip_clean x :
  strip x <> [] -> starts_clean (strip x) /\ starts_clean (rev (strip x)).
Proof.
  intros Hne. split; [by apply lstrip_starts_clean|].
  unfold strip, rstrip in *.
  destruct (lstrip (rev x)) as [|c y] eqn:E; [done|].
  assert (starts_clean (c :: y)) as (c' & y' & [= <- <-] & Hc).
  { rewrite <- E. apply lstrip_starts_clean. by rewrite E. }
  simpl rev. rewrite lstrip_snoc by exact Hc.
  rewrite rev_app_distr. simpl. by exists c, (rev (lstrip (rev y))).
Qed.

Lemma strip_fixed x :
  starts_clean x -> starts_clean (rev x) -> strip x = x.
Proof.
  intros H1 H2. unfold strip, rstrip.
  rewrite (starts_clean_lstrip _ H2), rev_involutive.
  by apply starts_clean_lstrip.
Qed.

Lemma paragraphs_trimmed text : Forall trimmed (paragraphs text).
Proof.
  unfold paragraphs. rewrite Forall_forall. intros p Hp.
  apply filter_In in Hp as [Hp Ht].
  apply in_map_iff in Hp as (x & <- & _).
  apply strip_clean. by destruct (strip x).
Qed.

Lemma join_starts_clean sep p ps :
  starts_clean p -> starts_clean (join sep (p :: ps)).
Proof.
  intros (c & p' & -> & Hc). destruct ps as [|p1 ps].
  - by exists c, p'.
  - rewrite join_cons by done. by eexists c, _.
Qed.

Lemma join_ends_clean sep ps p :
  starts_clean (rev p) -> starts_clean (rev (join sep (ps ++ [p]))).
Proof.
  intros (c & p' & Hp & Hc). destruct ps as [|p0 ps].
  - simpl. by exists c, p'.
  - rewrite join_snoc by done. rewrite !rev_app_distr, Hp.
    by eexists c, _.
Qed.

Lemma join_trimmed sep ps :
  ps <> [] -> Forall trimmed ps -> trimmed (join sep ps).
Proof.
  intros Hne Hall. split.
  - destruct ps as [|p ps]; [done|]. apply join_starts_clean.
    by inversion Hall as [|? ? [? ?]].
  - destruct (exists_last Hne) as (ps' & p & ->).
    apply join_ends_clean.
    apply Forall_app in Hall as [_ Hp]. by inversion Hp as [|? ? [? ?]].
Qed.

(** *** The paragraph loop on a short text *)

Lemma total_app ps qs : total (ps ++ qs) = total ps + total qs.
Proof. unfold total. by rewrite map_app, list_sum_app. Qed.

Lemma paragraphs_size text :
  total (paragraphs text) <= total (split_sep para_sep text)
  /\ length (paragraphs text) <= length (split_sep para_sep text).
Proof.
  unfold paragraphs. induction (split_sep para_sep text) as [|p ps IH];
    simpl; [unfold total; simpl; lia|].
  pose proof (strip_length p) as Hp. destruct IH as [IH1 IH2].
  destruct (truthy (strip p)); unfold total in *; simpl; lia.
Qed.

Lemma paragraphs_length text :
  length (join para_sep (paragraphs text)) <= length text.
Proof.
  rewrite <- (join_split_sep para_sep text) at 2 by done.
  rewrite !join_length. destruct (paragraphs_size text) as [H1 H2].
  change (length para_sep) with 2. lia.
Qed.

Lemma trimmed_truthy p : trimmed p -> truthy p = true.
Proof. by intros [(c & p' & -> & _) _]. Qed.

Lemma fold_short (chunk_size : Z) : forall later done,
  Forall trimmed (done ++ later) ->
  (Z.of_nat (length (join para_sep (done ++ later))) < chunk_size)%Z ->
  fold_left (add_paragraph chunk_size) later ([], join para_sep done)
  = ([], join para_sep (done ++ later)).
Proof.
  induction later as [|p later IH]; intros done Hall Hlen;
    cbn [fold_left].
  - by rewrite app_nil_r.
  - assert ((done ++ [p]) ++ later = done ++ p :: later) as Happ
      by (by rewrite <- app_assoc).
    assert (add_paragraph chunk_size ([], join para_sep done) p
            = ([], join para_sep (done ++ [p]))) as ->.
    { unfold add_paragraph, len.
      assert ((Z.of_nat (length (join para_sep done))
               + Z.of_nat (length p) <? chunk_size)%Z = true) as ->.
      { apply Z.ltb_lt. rewrite join_length in *.
        rewrite total_app, length_app in Hlen. unfold total in Hlen at 2.
        simpl in Hlen. change (length para_sep) with 2 in *. lia. }
      f_equal. destruct done as [|p0 done'] eqn:Ed; [reflexivity|].
      rewrite <- Ed in *.
      assert (done <> []) as Hne by (by rewrite Ed).
      rewrite trimmed_truthy.
      - by rewrite join_snoc.
      - apply join_trimmed; [exact Hne|].
        by apply Forall_app in Hall as [? _]. }
    rewrite IH; rewrite Happ; done.
Qed.

Lemma blank_join (ps : list str) :
  blank (join para_sep ps) <-> Forall blank ps.
Proof.
  assert (blank para_sep) as Hsep by (repeat constructor).
  induction ps as [|p ps IH]; [split; constructor|].
  destruct ps as [|p' ps].
  - simpl. split; [by repeat constructor|by inversion 1].
  - rewrite join_cons by done. unfold blank at 1.
    rewrite !Forall_app. fold (blank p) (blank para_sep).
    fold (blank (join para_sep (p' :: ps))). rewrite IH. split.
    + intros (? & _ & ?). by constructor.
    + by inversion 1.
Qed.

Lemma paragraphs_nil_iff text : paragraphs text = [] <-> blank text.
Proof.
  rewrite <- (join_split_sep para_sep text) at 2 by done.
  rewrite blank_join. unfold paragraphs.
  induction (split_sep para_sep text) as [|p ps IH]; simpl.
  - split; [constructor|done].
  - pose proof (strip_nil_iff p) as Hp.
    destruct (strip p) eqn:E; simpl.
    + assert (blank p) as Hb by (by apply Hp).
      rewrite IH. split; [by constructor|by inversion 1].
    + split; [done|]. inversion 1 as [|? ? Hb ?]; subst.
      apply Hp in Hb. discriminate.
Qed.

Lemma chunk_short (text : str) (chunk_size overlap : Z) :
  (Z.of_nat (length text) < chunk_size)%Z ->
  chunk_text_smart text chunk_size overlap
  = match paragraphs text with
    | [] => []
    | _ :: _ => [join para_sep (paragraphs text)]
    end.
Proof.
  intros Hlen. unfold chunk_text_smart.
  pose proof (paragraphs_trimmed text) as Htr.
  pose proof (paragraphs_length text) as Hle.
  change (@nil ascii) with (join para_sep []) at 1.
  rewrite fold_short; simpl app; [|exact Htr|lia].
  destruct (paragraphs text) as [|p ps] eqn:E; [reflexivity|].
  rewrite <- E in *.
  assert (trimmed (join para_sep (paragraphs text))) as Hj
    by (apply join_trimmed; [by rewrite E|exact Htr]).
  rewrite (trimmed_truthy _ Hj). destruct Hj as [H1 H2].
  rewrite (strip_fixed _ H1 H2). reflexivity.
Qed.

(** C5, as amended.  For every text shorter than [chunk_size]: a text of
    white space only yields no chunk; any other text yields exactly one
    chunk, its non-blank paragraphs, each trimmed, joined by blank lines;
    and when the text contains no paragraph separator that one chunk is the
    trimmed text. *)
Theorem chunk_short_text (text : str) (chunk_size overlap : Z) :
  (Z.of_nat (length text) < chunk_size)%Z ->
  let chunks := chunk_text_smart text chunk_size overlap in
  ((forall c, In c text -> isspace c = true) -> chunks = [])
  /\ ((exists c, In c text /\ isspace c = false) ->
      chunks = [join para_sep (paragraphs text)])
  /\ (contains para_sep text = false ->
      (exists c, In c text /\ isspace c = false) ->
      chunks = [strip text]).
Proof.
  intros Hlen chunks. subst chunks. rewrite chunk_short by exact Hlen.
  assert ((exists c, In c text /\ isspace c = false) ->
          paragraphs text <> []) as Hne.
  { intros (c & Hin & Hc) Hnil. apply paragraphs_nil_iff in Hnil.
    unfold blank in Hnil. rewrite Forall_forall in Hnil.
    rewrite (Hnil c Hin) in Hc. discriminate. }
  split; [|split].
  - intros Hb.
    assert (paragraphs text = []) as ->; [|reflexivity].
    apply paragraphs_nil_iff. unfold blank. by rewrite Forall_forall.
  - intros Hex. specialize (Hne Hex).
    by destruct (paragraphs text).
  - intros Hsep Hex. specialize (Hne Hex).
    unfold paragraphs in *. rewrite (split_sep_absent _ _ Hsep) in *.
    simpl in *. by destruct (strip text).
Qed.

Lemma chunk_short_text_witness :
  (Z.of_nat (length (s "  Paris is the capital of France. ")) < 500)%Z
  /\ chunk_text_smart (s "  Paris is the capital of France. ") 500 100
     = [s "Paris is the capital of France."].
Proof.
  assert (Z.of_nat (length (s "  Paris is the capital of France. "))
          < 500)%Z as Hlen by (vm_compute; reflexivity).
  split; [exact Hlen|].
  apply (proj2 (proj2 (chunk_short_text _ 500 100 Hlen))).
  - vm_compute. reflexivity.
  - exists "P"%char. split; [|reflexivity]. simpl. auto.
Defined.

(** C5 as stated fails: each paragraph is trimmed on its own, so the one
    chunk need not be the trimmed text, and a blank text gives no chunk. *)
Lemma chunk_short_text_not_trimmed_input :
  chunk_text_smart (s "a " ++ para_sep ++ s " b") 500 100
  = [s "a" ++ para_sep ++ s "b"]
  /\ chunk_text_smart (s " ") 500 100 = []
  /\ ~ (forall text chunk_size overlap,
          (Z.of_nat (length text) < chunk_size)%Z ->
          chunk_text_smart text chunk_size overlap = [strip text]).
Proof.
  assert (chunk_text_smart (s " ") 500 100 = []) as H
    by (vm_compute; reflexivity).
  split; [vm_compute; reflexivity|]. split; [exact H|].
  intros Hc. rewrite (Hc (s " ") 500%Z 100%Z) in H; [discriminate|].
  vm_compute. reflexivity.
Qed.

End ChunkerProps.

(* ===================================================================== *)
(** * Further properties of the code *)
(* ===================================================================== *)

Module EngineMore.
Import PySort PySlice PySortProps Embeddings EngineSpec EngineProps.

Lemma NoDup_map_filter {A B} (f : A -> B) (g : A -> bool) (l : list A) :
  List.NoDup (map f l) -> List.NoDup (map f (List.filter g l)).
Proof.
  induction l as [|x l IH]; simpl; [done|].
  intros Hn. apply NoDup_cons_iff in Hn as [Hx Hl].
  destruct (g x); simpl; [|by apply IH].
  apply NoDup_cons_iff. split; [|by apply IH].
  rewrite in_map_iff in *.
  intros (y & Hy & Hin). apply Hx. exists y. split; [done|].
  by apply filter_In in Hin as [? _].
Qed.

Lemma NoDup_firstn {A} (n : nat) (l : list A) :
  List.NoDup l -> List.NoDup (firstn n l).
Proof.
  intros H. rewrite <- (firstn_skipn n l) in H.
  by apply NoDup_app_remove_r in H.
Qed.

Lemma In_firstn_In {A} (n : nat) (l : list A) x :
  In x (firstn n l) -> In x l.
Proof.
  intros H. rewrite <- (firstn_skipn n l). apply in_or_app. by left.
Qed.


Section Engine.
Variable row_similarity : Vec -> Vec -> Q.

Lemma scored_indices_values q rows k m :
  Forall (fun p => fst p = nth (snd p) (similarities row_similarity q rows) 0%Q)
    (scored_indices row_similarity q rows k m).
Proof.
  unfold scored_indices.
  destruct (above row_similarity q rows m) eqn:E.
  - rewrite Forall_map. by apply Forall_forall.
  - rewrite <- E. rewrite Forall_forall. intros [v i] Hin.
    eapply Permutation_in in Hin; [|apply sort_perm].
    apply filter_In in Hin as [Hin _].
    apply in_map_iff in Hin as ([j w] & [= <- <-] & Hin).
    apply (enumerate_nth _ 0%Q) in Hin as [_ Hin]. simpl. by rewrite Hin.
Qed.

Lemma scored_indices_nodup q rows k m :
  List.NoDup (map snd (scored_indices row_similarity q rows k m)).
Proof.
  unfold scored_indices.
  destruct (above row_similarity q rows m) eqn:E.
  - rewrite map_map. simpl. rewrite map_id.
    destruct (slice_to_firstn
                (rev (argsort (similarities row_similarity q rows))) k)
      as (n & -> & _).
    apply NoDup_firstn, NoDup_rev.
    eapply Permutation_NoDup; [symmetry; apply argsort_perm|].
    apply seq_NoDup.
  - rewrite <- E.
    eapply Permutation_NoDup;
      [apply Permutation_map; symmetry; apply sort_perm|].
    unfold above. apply NoDup_map_filter.
    rewrite map_map. simpl.
    change (map (fun x : nat * Q => fst x)) with (map (@fst nat Q)).
    rewrite enumerate_fst. apply seq_NoDup.
Qed.

Lemma pick_indices chunks l :
  flat_map (pick chunks) l
  = map (fun p => (nth (snd p) chunks [], fst p))
      (List.filter (fun p => snd p <? length chunks) l).
Proof.
  induction l as [|[v i] l IH]; simpl; [reflexivity|].
  destruct (i <? length chunks); simpl; by rewrite IH.
Qed.

Lemma find_similar_chunks_indices
    (q : Vec) (rows : list Vec) (chunks : list str) (top_k : Z) (m : Q) :
  let sims := map (fun row => row_similarity row q) rows in
  exists idxs,
    List.NoDup idxs
    /\ Forall (fun i => i < length rows /\ i < length chunks) idxs
    /\ find_similar_chunks row_similarity q (Some rows) chunks top_k m
       = map (fun i => (nth i chunks [], nth i sims 0%Q)) idxs.
Proof.
  intros sims.
  assert (rows = [] \/ rows <> []) as [->|Hr]
    by (destruct rows; [by left|by right]).
  { exists []. repeat split; constructor. }
  fold (similarities row_similarity q rows) in sims.
  rewrite find_similar_chunks_rows by exact Hr.
  rewrite pick_indices.
  destruct (slice_to_firstn (scored_indices row_similarity q rows top_k m)
              top_k) as (n & -> & _).
  set (kept := List.filter _ _).
  exists (map snd kept). split; [|split].
  - apply NoDup_map_filter with (f := snd).
    rewrite <- firstn_map. apply NoDup_firstn, scored_indices_nodup.
  - rewrite Forall_map, Forall_forall. intros p Hp.
    apply filter_In in Hp as [Hp Hlt]. apply Nat.ltb_lt in Hlt.
    split; [|exact Hlt].
    pose proof (scored_indices_in_range row_similarity q rows top_k m)
      as Hrange.
    rewrite Forall_forall in Hrange. apply Hrange.
    by apply In_firstn_In in Hp.
  - rewrite map_map. apply map_ext_in. intros p Hp.
    apply filter_In in Hp as [Hp _]. f_equal.
    pose proof (scored_indices_values q rows top_k m) as Hv.
    rewrite Forall_forall in Hv. apply Hv.
    by apply In_firstn_In in Hp.
Qed.

(** X6.  Every entry [find_similar_chunks] returns is the chunk at some
    index, within both the vectors and the chunks, paired with the score of
    the vector at that index; and no index is returned twice. *)
Theorem find_similar_chunks_sound
    (q : Vec) (rows : list Vec) (chunks : list str) (top_k : Z) (m : Q) :
  let sims := map (fun row => row_similarity row q) rows in
  exists idxs,
    List.NoDup idxs
    /\ Forall (fun i => i < length rows /\ i < length chunks) idxs
    /\ find_similar_chunks row_similarity q (Some rows) chunks top_k m
       = map (fun i => (nth i chunks [], nth i sims 0%Q)) idxs.
Proof. apply find_similar_chunks_indices. Qed.

Lemma find_similar_chunks_from_chunks
    (q : Vec) (emb : option (list Vec)) (chunks : list str) (top_k : Z)
    (m : Q) :
  Forall (fun e => In (fst e) chunks)
    (find_similar_chunks row_similarity q emb chunks top_k m).
Proof.
  destruct emb as [rows|]; [|constructor].
  destruct (find_similar_chunks_indices q rows chunks top_k m)
    as (idxs & _ & Hi & ->).
  rewrite Forall_map. eapply Forall_impl; [|exact Hi].
  intros i [_ Hlt]. simpl. by apply nth_In.
Qed.

Lemma find_similar_chunks_length
    (q : Vec) (emb : option (list Vec)) (chunks : list str) (top_k : Z)
    (m : Q) :
  (0 <= top_k)%Z ->
  length (find_similar_chunks row_similarity q emb chunks top_k m)
  <= Z.to_nat top_k.
Proof.
  intros Hk. destruct emb as [[|row rows]|]; try (simpl; lia).
  rewrite find_similar_chunks_rows by done.
  rewrite slice_to_nonneg by exact Hk.
  etransitivity; [apply pick_length|]. apply firstn_le_length.
Qed.

(** X7.  When some score reaches [min_similarity], every score
    [find_similar_chunks] returns reaches it: the fallback below the
    threshold is used only when nothing is above it. *)
Theorem find_similar_chunks_threshold
    (q : Vec) (rows : list Vec) (chunks : list str) (top_k : Z) (m : Q) :
  (exists row, In row rows /\ (m <= row_similarity row q)%Q) ->
  Forall (fun e => (m <= snd e)%Q)
    (find_similar_chunks row_similarity q (Some rows) chunks top_k m).
Proof.
  intros (row & Hin & Hle).
  assert (rows <> []) as Hr by (by destruct rows).
  rewrite find_similar_chunks_rows by exact Hr.
  assert (above row_similarity q rows m <> []) as Ha.
  { intros Hnil.
    pose proof (proj1 (above_nil_iff row_similarity q rows m) Hnil) as Hno.
    apply (Hno (row_similarity row q)); [|exact Hle].
    unfold similarities. apply in_map_iff. by exists row. }
  rewrite pick_indices, Forall_map, Forall_forall. intros [v i] Hp. simpl.
  apply filter_In in Hp as [Hp _].
  destruct (slice_to_firstn (scored_indices row_similarity q rows top_k m)
              top_k) as (n & Hn & _).
  rewrite Hn in Hp.
  assert (In (v, i) (scored_indices row_similarity q rows top_k m)) as Hs
    by (by apply In_firstn_In in Hp).
  unfold scored_indices in Hs.
  destruct (above row_similarity q rows m) eqn:E; [done|].
  rewrite <- E in Hs.
  eapply Permutation_in in Hs; [|apply sort_perm].
  apply filter_In in Hs as [_ Hs]. by apply Qle_bool_iff in Hs.
Qed.



End Engine.
End EngineMore.

Module ChunkerMore.
Import PyStr PySlice PyStrProps Chunker ChunkerSpec ChunkerProps
  ChunkerMoreSpec.

Lemma ends_clean_app x y : ends_clean y -> ends_clean (x ++ y).
Proof.
  intros (c & y' & Hy & Hc). unfold ends_clean.
  rewrite rev_app_distr, Hy. by eexists c, _.
Qed.

Lemma ends_clean_strip x : ends_clean x -> trimmed (strip x).
Proof.
  intros (c & x' & Hx & Hc). apply strip_clean.
  intros Hnil. apply strip_nil_iff in Hnil.
  apply blank_rev in Hnil. rewrite Hx in Hnil.
  inversion Hnil; congruence.
Qed.

Lemma trimmed_fixed c : trimmed c -> c <> [] /\ strip c = c.
Proof.
  intros [H1 H2]. split; [|by apply strip_fixed].
  by destruct H1 as (a & c' & -> & _).
Qed.

Lemma trimmed_dot x : trimmed (strip x ++ s ".").
Proof.
  split.
  - destruct (strip x) as [|c y] eqn:E.
    + by exists "."%char, [].
    + assert (starts_clean (c :: y)) as (c' & y' & [= <- <-] & Hc).
      { rewrite <- E. apply strip_clean. by rewrite E. }
      by eexists c, _.
  - apply ends_clean_app. by exists "."%char, [].
Qed.

(** The last piece of a split of a trimmed text ends the text, when the
    separator ends in white space. *)
Lemma split_last_clean (sep' : str) (a : ascii) (x : str)
    (pieces : list str) (last : str) :
  isspace a = true -> trimmed x ->
  split_sep (sep' ++ [a]) x = pieces ++ [last] -> ends_clean last.
Proof.
  intros Ha [Hs He] Hsplit.
  assert (sep' ++ [a] <> []) as Hsep by (by destruct sep').
  pose proof (join_split_sep (sep' ++ [a]) x Hsep) as Hj.
  rewrite Hsplit in Hj.
  destruct He as (c & x' & Hx & Hc).
  assert (exists front, x = front ++ last) as (front & Hf).
  { destruct pieces as [|p pieces].
    - simpl in Hj. by exists [].
    - rewrite join_snoc in Hj by done.
      exists (join (sep' ++ [a]) (p :: pieces) ++ sep' ++ [a]).
      by rewrite <- app_assoc. }
  assert (last <> []) as Hl.
  { intros ->. destruct pieces as [|p pieces].
    - simpl in Hj. subst x. by destruct Hs as (? & ? & ? & _).
    - rewrite join_snoc in Hj by done. rewrite app_nil_r in Hj.
      rewrite <- Hj in Hx. rewrite !app_assoc, rev_app_distr in Hx.
      simpl in Hx. injection Hx as <- _. congruence. }
  unfold ends_clean. rewrite Hf, rev_app_distr in Hx.
  destruct (rev last) as [|b r] eqn:Er.
  - apply (f_equal (@length _)) in Er. rewrite length_rev in Er.
    destruct last; [done|discriminate].
  - simpl in Hx. injection Hx as -> _. by exists c, r.
Qed.

(** *** The sentence loop *)

Lemma add_sentence_trimmed chunk_size chunks temp sentence :
  Forall trimmed chunks ->
  Forall trimmed (fst (add_sentence chunk_size (chunks, temp) sentence)).
Proof.
  intros H. unfold add_sentence.
  destruct (len temp + len sentence <? chunk_size)%Z; cbn [fst];
    [exact H|].
  destruct (truthy temp); [|exact H].
  apply Forall_app. split; [exact H|].
  constructor; [apply trimmed_dot|constructor].
Qed.

Lemma add_sentence_suffix chunk_size chunks temp sentence :
  exists pre,
    snd (add_sentence chunk_size (chunks, temp) sentence) = pre ++ sentence.
Proof.
  unfold add_sentence.
  destruct (len temp + len sentence <? chunk_size)%Z; cbn [snd].
  - destruct (truthy temp).
    + exists (temp ++ sentence_sep). by rewrite <- app_assoc.
    + by exists [].
  - by exists [].
Qed.

Lemma fold_sentences chunk_size sentences : forall chunks temp,
  Forall trimmed chunks ->
  let r := fold_left (add_sentence chunk_size) sentences (chunks, temp) in
  Forall trimmed (fst r)
  /\ forall pieces last, sentences = pieces ++ [last] ->
                         exists pre, snd r = pre ++ last.
Proof.
  induction sentences as [|x sentences IH]; intros chunks temp Hc r;
    subst r; cbn [fold_left].
  - split; [exact Hc|]. intros pieces last H. by destruct pieces.
  - destruct (add_sentence chunk_size (chunks, temp) x) as [chunks' temp']
      eqn:E.
    pose proof (add_sentence_trimmed chunk_size chunks temp x Hc) as Ht.
    pose proof (add_sentence_suffix chunk_size chunks temp x) as Hs.
    rewrite E in Ht, Hs. simpl in Ht, Hs.
    destruct (IH chunks' temp' Ht) as [IH1 IH2]. split; [exact IH1|].
    intros pieces last Heq. destruct sentences as [|y sentences'].
    + destruct pieces as [|p pieces]; simpl in Heq.
      * injection Heq as ->. exact Hs.
      * injection Heq as _ Heq. by destruct pieces.
    + destruct pieces as [|p pieces]; simpl in Heq; [discriminate|].
      injection Heq as _ Heq. by apply (IH2 pieces last).
Qed.

(** *** The paragraph loop *)

Lemma add_paragraph_ok chunk_size chunks current para :
  trimmed para -> Forall trimmed chunks -> running_ok current ->
  Forall trimmed (fst (add_paragraph chunk_size (chunks, current) para))
  /\ ends_clean (snd (add_paragraph chunk_size (chunks, current) para)).
Proof.
  intros Hp Hc Hr. unfold add_paragraph.
  destruct (len current + len para <? chunk_size)%Z; cbn [fst snd].
  - split; [exact Hc|].
    destruct (truthy current); [|apply Hp].
    rewrite app_assoc. apply ends_clean_app, Hp.
  - set (chunks1 := if truthy current then _ else _).
    assert (Forall trimmed chunks1) as H1.
    { subst chunks1. destruct current as [|c cur]; [exact Hc|].
      cbn [truthy]. apply Forall_app. split; [exact Hc|].
      constructor; [|constructor].
      apply ends_clean_strip. by destruct Hr. }
    destruct (len para >? chunk_size)%Z; [|split; [exact H1|apply Hp]].
    destruct (fold_sentences chunk_size (split_sep sentence_sep para)
                chunks1 [] H1) as [Hf Hl].
    split; [exact Hf|].
    destruct (exists_last (split_go_nonempty sentence_sep para 0))
      as (pieces & last & Hsplit).
    destruct (Hl pieces last Hsplit) as (pre & ->).
    apply ends_clean_app.
    by apply (split_last_clean (s ".") " "%char para pieces last).
Qed.

Lemma fold_paragraphs chunk_size paras : forall chunks current,
  Forall trimmed paras -> Forall trimmed chunks -> running_ok current ->
  let r := fold_left (add_paragraph chunk_size) paras (chunks, current) in
  Forall trimmed (fst r)
  /\ running_ok (snd r)
  /\ (paras <> [] -> ends_clean (snd r)).
Proof.
  induction paras as [|p paras IH]; intros chunks current Hp Hc Hr r;
    subst r; cbn [fold_left].
  - repeat split; [exact Hc|exact Hr|done].
  - inversion Hp as [|? ? Hp1 Hp2]; subst.
    destruct (add_paragraph_ok chunk_size chunks current p Hp1 Hc Hr)
      as [H1 H2].
    destruct (add_paragraph chunk_size (chunks, current) p)
      as [chunks' current'] eqn:E. simpl in H1, H2.
    destruct (IH chunks' current' Hp2 H1 (or_intror H2))
      as (I1 & I2 & I3).
    repeat split; [exact I1|exact I2|]. intros _.
    destruct paras as [|p' paras']; [exact H2|]. by apply I3.
Qed.

(** The chunks before the overlap is put in. *)
Lemma base_chunks text chunk_size :
  let r := fold_left (add_paragraph chunk_size) (paragraphs text) ([], []) in
  chunk_text_smart text chunk_size 0
  = (if truthy (snd r) then fst r ++ [strip (snd r)] else fst r)
  /\ forall overlap,
       chunk_text_smart text chunk_size overlap
       = match chunk_text_smart text chunk_size 0 with
         | first :: ((_ :: _) as rest) =>
             if (overlap >? 0)%Z
             then first :: add_overlap overlap first rest
             else first :: rest
         | chunks => chunks
         end.
Proof.
  intros r. subst r. unfold chunk_text_smart.
  destruct (fold_left _ _ _) as [chunks0 current]. simpl snd. simpl fst.
  set (chunks := if truthy current then _ else _).
  assert (forall b, (if b && (0 >? 0)%Z
                     then match chunks with
                          | [] => []
                          | first :: rest => first :: add_overlap 0 first rest
                          end
                     else chunks) = chunks) as H0
    by (intros b; by rewrite andb_false_r).
  rewrite H0. split; [reflexivity|]. intros overlap.
  destruct chunks as [|c1 [|c2 rest]]; try reflexivity.
  replace (Z.of_nat (length (c1 :: c2 :: rest)) >? 1)%Z with true
    by (symmetry; apply Z.gtb_lt; simpl length; lia).
  reflexivity.
Qed.

Lemma base_chunks_trimmed text chunk_size :
  Forall trimmed (chunk_text_smart text chunk_size 0)
  /\ (paragraphs text <> [] -> chunk_text_smart text chunk_size 0 <> []).
Proof.
  destruct (base_chunks text chunk_size) as [-> _].
  destruct (fold_paragraphs chunk_size (paragraphs text) [] []
              (paragraphs_trimmed text) (Forall_nil _) (or_introl eq_refl))
    as (H1 & H2 & H3).
  destruct (fold_left _ _ _) as [chunks0 current]. simpl in *.
  split.
  - destruct current as [|c cur]; [exact H1|]. cbn [truthy].
    apply Forall_app. split; [exact H1|].
    constructor; [|constructor].
    apply ends_clean_strip. by destruct H2.
  - intros Hne. specialize (H3 Hne).
    destruct current as [|c cur].
    + by destruct H3 as (? & ? & ? & _).
    + simpl. by destruct chunks0.
Qed.

Lemma Forall2_weaken {A B} (P Q : A -> B -> Prop) l l' :
  (forall a b, P a b -> Q a b) -> Forall2 P l l' -> Forall2 Q l l'.
Proof. intros H. induction 1; constructor; auto. Qed.

Lemma Forall2_left {A B} (P : A -> B -> Prop) (Q : A -> Prop) l l' :
  (forall a b, P a b -> Q a) -> Forall2 P l l' -> Forall Q l.
Proof. intros H. induction 1; constructor; eauto. Qed.

(** Trimming a text that ends in a trimmed chunk keeps the chunk. *)
Lemma strip_keeps_suffix prefix chunk :
  trimmed chunk ->
  exists pre, strip (prefix ++ chunk) = pre ++ chunk.
Proof.
  intros [Hs He]. unfold strip, rstrip.
  assert (lstrip (rev (prefix ++ chunk)) = rev (prefix ++ chunk)) as ->.
  { apply starts_clean_lstrip. by apply ends_clean_app. }
  rewrite rev_involutive.
  induction prefix as [|c prefix IH]; simpl.
  - exists []. by apply starts_clean_lstrip.
  - destruct (isspace c); [exact IH|]. by exists (c :: prefix).
Qed.

Lemma add_overlap_spec overlap : forall rest prev,
  Forall trimmed rest ->
  Forall2 (fun o b => trimmed o /\ exists pre, o = pre ++ b)
    (add_overlap overlap prev rest) rest.
Proof.
  induction rest as [|c rest IH]; intros prev Hr; cbn [add_overlap];
    [constructor|].
  inversion Hr as [|? ? Hc Hrest]; subst. constructor; [|by apply IH].
  destruct (strip_keeps_suffix (overlap_text overlap prev ++ s " ") c Hc)
    as (pre & Hpre).
  rewrite <- app_assoc in Hpre. split; [|by exists pre].
  rewrite Hpre. destruct Hc as [Hc1 Hc2]. split.
  - rewrite <- Hpre. apply strip_clean. rewrite Hpre.
    destruct Hc1 as (a & c' & -> & _). by destruct pre.
  - by apply ends_clean_app.
Qed.

(** X11.  The overlap only puts text in front: with any overlap the
    chunker returns as many chunks as with overlap 0, each one ends with
    the chunk of the run without overlap, and the first chunk is the
    same. *)
Theorem overlap_only_prepends (text : str) (chunk_size overlap : Z) :
  Forall2 (fun with_overlap without => exists pre, with_overlap = pre ++ without)
    (chunk_text_smart text chunk_size overlap)
    (chunk_text_smart text chunk_size 0)
  /\ hd [] (chunk_text_smart text chunk_size overlap)
     = hd [] (chunk_text_smart text chunk_size 0).
Proof.
  destruct (base_chunks text chunk_size) as [_ Hov]. rewrite (Hov overlap).
  destruct (base_chunks_trimmed text chunk_size) as [Htr _].
  assert (forall l : list str,
             Forall2 (fun a b : str => exists pre, a = pre ++ b) l l) as Hrefl.
  { induction l; constructor; [by exists []|done]. }
  destruct (chunk_text_smart text chunk_size 0) as [|c1 [|c2 rest]];
    [split; [constructor|done]|split; [apply Hrefl|done]|].
  destruct (overlap >? 0)%Z; [|split; [apply Hrefl|done]].
  split; [|reflexivity].
  constructor; [by exists []|].
  inversion Htr as [|? ? _ Hrest]; subst.
  eapply Forall2_weaken;
    [|exact (add_overlap_spec overlap (c2 :: rest) c1 Hrest)].
  intros a b [_ H]. exact H.
Qed.

(** X9.  For every text, chunk size and overlap, no chunk of
    [chunk_text_smart] is empty and none has white space at its start or
    end. *)
Theorem chunks_are_trimmed (text : str) (chunk_size overlap : Z) :
  Forall (fun chunk => chunk <> [] /\ strip chunk = chunk)
    (chunk_text_smart text chunk_size overlap).
Proof.
  eapply Forall_impl; [intros c; apply trimmed_fixed|].
  destruct (base_chunks text chunk_size) as [_ Hov]. rewrite (Hov overlap).
  destruct (base_chunks_trimmed text chunk_size) as [Htr _].
  destruct (chunk_text_smart text chunk_size 0) as [|c1 [|c2 rest]];
    try exact Htr.
  destruct (overlap >? 0)%Z; [|exact Htr].
  inversion Htr as [|? ? H1 Hrest]; subst. constructor; [exact H1|].
  eapply Forall2_left;
    [|exact (add_overlap_spec overlap (c2 :: rest) c1 Hrest)].
  intros a b [H _]. exact H.
Qed.

Lemma chunks_nil_iff (text : str) (chunk_size overlap : Z) :
  chunk_text_smart text chunk_size overlap = []
  <-> (forall c, In c text -> isspace c = true).
Proof.
  destruct (base_chunks text chunk_size) as [Hb Hov]. rewrite (Hov overlap).
  destruct (base_chunks_trimmed text chunk_size) as [_ Hne].
  assert ((forall c, In c text -> isspace c = true)
          <-> paragraphs text = []) as ->.
  { rewrite paragraphs_nil_iff. unfold blank. by rewrite Forall_forall. }
  split.
  - intros H. destruct (paragraphs text) eqn:E; [reflexivity|].
    exfalso.
    assert (chunk_text_smart text chunk_size 0 <> []) as Hn
      by (by apply Hne).
    destruct (chunk_text_smart text chunk_size 0) as [|c1 [|c2 rest]];
      [done|done|]. by destruct (overlap >? 0)%Z.
  - intros Hnil. cbv zeta in Hb. rewrite Hnil in Hb. simpl in Hb.
    by rewrite Hb.
Qed.

(** X10.  [chunk_text_smart] returns no chunk exactly when the text is
    empty or made of white space only, whatever the chunk size and the
    overlap are. *)
Theorem no_chunks_iff_blank (text : str) (chunk_size overlap : Z) :
  chunk_text_smart text chunk_size overlap = []
  <-> (forall c, In c text -> isspace c = true).
Proof. apply chunks_nil_iff. Qed.

End ChunkerMore.

Module StoreTrace.
Import PyStr Store StoreSpec StoreProps StoreTraceSpec.

(** What one operation leaves under an identifier, found or not. *)
Lemma get_or_new_run_op (st : ConversationStore) (op : Op) (cid : str) :
  get_or_new cid (run_op st op)
  = match op with
    | OpStart token =>
        if bool_decide (token = cid) then new_conversation
        else get_or_new cid st
    | OpEnsure _ => get_or_new cid st
    | OpAppend c r t =>
        if bool_decide (c = cid)
        then {| history :=
                  history (get_or_new cid st)
                  ++ [ {| role := r; content := t |} ];
                document_text := document_text (get_or_new cid st);
                document_chunks := document_chunks (get_or_new cid st);
                chunk_embeddings := chunk_embeddings (get_or_new cid st) |}
        else get_or_new cid st
    | OpStore gen c text =>
        if bool_decide (c = cid)
        then {| history := history (get_or_new cid st);
                document_text := text;
                document_chunks := snd (fst (stored_fields gen text));
                chunk_embeddings := snd (stored_fields gen text) |}
        else get_or_new cid st
    end.
Proof.
  unfold get_or_new.
  destruct op as [tok|c|c r t|gen c text]; simpl.
  - case_bool_decide as E; [subst; by rewrite lookup_insert_eq|].
    by rewrite lookup_insert_ne.
  - unfold ensure_conversation.
    destruct (_store st !! c) eqn:E; simpl; [reflexivity|].
    destruct (decide (c = cid)) as [->|Hne].
    + by rewrite lookup_insert_eq, E.
    + by rewrite lookup_insert_ne.
  - unfold append_message.
    destruct (setdefault c (_store st)) as [c0 m] eqn:E. simpl.
    pose proof (setdefault_fst c (_store st)) as Hf.
    rewrite E in Hf. simpl in Hf.
    case_bool_decide as Ec.
    + subst c. rewrite lookup_insert_eq. subst c0.
      by destruct (_store st !! cid).
    + rewrite lookup_insert_ne by done.
      pose proof (setdefault_other c cid (_store st) Ec) as Ho.
      rewrite E in Ho. simpl in Ho. by rewrite Ho.
  - unfold store_document, stored_fields.
    destruct (setdefault c (_store st)) as [c0 m] eqn:E.
    pose proof (setdefault_fst c (_store st)) as Hf.
    rewrite E in Hf. simpl in Hf.
    set (chunks := Chunker.chunk_text_smart text 500 100).
    case_bool_decide as Ec.
    + subst c.
      destruct (truthy chunks); [destruct (gen chunks)|]; simpl;
        rewrite lookup_insert_eq; subst c0;
        by destruct (_store st !! cid).
    + pose proof (setdefault_other c cid (_store st) Ec) as Ho.
      rewrite E in Ho. simpl in Ho.
      destruct (truthy chunks); [destruct (gen chunks)|]; simpl;
        rewrite lookup_insert_ne by done; by rewrite Ho.
Qed.

Lemma lookup_run_op_other (st : ConversationStore) (op : Op) (cid : str) :
  op_target op <> cid ->
  _store (run_op st op) !! cid = _store st !! cid.
Proof.
  intros Hne. destruct op as [tok|c|c r t|gen c text]; simpl in *.
  - by rewrite lookup_insert_ne.
  - unfold ensure_conversation.
    destruct (_store st !! c); simpl; [reflexivity|].
    by rewrite lookup_insert_ne.
  - unfold append_message.
    destruct (setdefault c (_store st)) as [c0 m] eqn:E. simpl.
    rewrite lookup_insert_ne by done.
    pose proof (setdefault_other c cid (_store st) Hne) as Ho.
    by rewrite E in Ho.
  - unfold store_document.
    destruct (setdefault c (_store st)) as [c0 m] eqn:E.
    pose proof (setdefault_other c cid (_store st) Hne) as Ho.
    rewrite E in Ho. simpl in Ho.
    destruct (truthy _); [destruct (gen _)|]; simpl;
      rewrite lookup_insert_ne by done; exact Ho.
Qed.

(** X1.  A sequence of store operations that never names [cid] leaves
    whatever is stored under [cid] exactly as it was. *)
Theorem other_identifiers_untouched
    (ops : list Op) (st : ConversationStore) (cid : str) :
  Forall (fun op => op_target op <> cid) ops ->
  _store (run ops st) !! cid = _store st !! cid.
Proof.
  revert st. induction ops as [|op ops IH]; intros st Hall; simpl;
    [reflexivity|].
  inversion Hall; subst. rewrite IH by assumption.
  by apply lookup_run_op_other.
Qed.

(** X2.  History is append-only: as long as [start_conversation] does not
    draw [cid] again, the history of [cid] after any sequence of operations
    is its history before, followed by the messages appended to [cid], in
    the order of the calls; uploads and operations on other conversations
    do not touch it. *)
Theorem history_is_append_only
    (ops : list Op) (st : ConversationStore) (cid : str) :
  Forall (not_start cid) ops ->
  history (get_or_new cid (run ops st))
  = history (get_or_new cid st) ++ appended cid ops.
Proof.
  revert st. induction ops as [|op ops IH]; intros st Hall; simpl.
  - by rewrite app_nil_r.
  - inversion Hall as [|? ? Hop Hrest]; subst.
    rewrite (IH _ Hrest). rewrite get_or_new_run_op.
    destruct op as [tok|c|c r t|gen c text]; simpl in *.
    + by rewrite bool_decide_eq_false_2.
    + reflexivity.
    + case_bool_decide; simpl; [|reflexivity].
      by rewrite <- app_assoc.
    + by case_bool_decide.
Qed.

(** X3.  The last upload wins: as long as [start_conversation] does not
    draw [cid] again, the text, the chunks and the vectors of [cid] after
    any sequence of operations are those written by the last
    [store_document] on [cid], and the ones before when there is none;
    nothing of an earlier document is merged in. *)
Theorem last_upload_wins
    (ops : list Op) (st : ConversationStore) (cid : str) :
  Forall (not_start cid) ops ->
  fields_of (get_or_new cid (run ops st))
  = last_stored cid ops (fields_of (get_or_new cid st)).
Proof.
  revert st. induction ops as [|op ops IH]; intros st Hall; simpl;
    [reflexivity|].
  inversion Hall as [|? ? Hop Hrest]; subst.
  rewrite (IH _ Hrest). unfold last_stored. f_equal.
  rewrite get_or_new_run_op.
  destruct op as [tok|c|c r t|gen c text]; simpl in *.
  - by rewrite bool_decide_eq_false_2.
  - reflexivity.
  - by case_bool_decide.
  - case_bool_decide; [|reflexivity].
    unfold fields_of, stored_fields. reflexivity.
Qed.

Lemma counters_run_op (st : ConversationStore) (op : Op) :
  _query_count (run_op st op)
  = _query_count st + (if is_user_append op then 1 else 0)
  /\ _document_uploads (run_op st op)
     = _document_uploads st + (if is_indexed op then 1 else 0).
Proof.
  destruct op as [tok|c|c r t|gen c text]; cbn [run_op is_user_append
    is_indexed].
  - simpl. lia.
  - unfold ensure_conversation. destruct (_store st !! c); simpl; lia.
  - unfold append_message.
    destruct (setdefault c (_store st)) as [c0 m]. cbn [snd _query_count
      _document_uploads].
    destruct (str_eqb r (s "user")); lia.
  - unfold store_document.
    destruct (setdefault c (_store st)) as [c0 m].
    destruct (truthy (Chunker.chunk_text_smart text 500 100));
      [destruct (gen _)|]; simpl; lia.
Qed.

(** X4.  After any sequence of operations [total_queries] has grown by
    the number of [append_message] calls with role user, and
    [documents_indexed] by the number of [store_document] calls whose
    document has chunks and whose embedding call returned. *)
Theorem counters_count (ops : list Op) (st : ConversationStore) :
  total_queries (fst (get_stats (run ops st)))
  = total_queries (fst (get_stats st)) + user_appends ops
  /\ documents_indexed (fst (get_stats (run ops st)))
     = documents_indexed (fst (get_stats st)) + indexed ops.
Proof.
  cbn [get_stats fst total_queries documents_indexed].
  unfold user_appends, indexed.
  revert st. induction ops as [|op ops IH]; intros st.
  - simpl. lia.
  - cbn [run fold_left List.filter].
    destruct (IH (run_op st op)) as [IH1 IH2]. unfold run in IH1, IH2.
    rewrite IH1, IH2.
    destruct (counters_run_op st op) as [-> ->].
    destruct (is_user_append op), (is_indexed op); simpl; lia.
Qed.

Lemma dom_run_op (st : ConversationStore) (op : Op) :
  dom (_store (run_op st op)) = {[ op_target op ]} ∪ dom (_store st).
Proof.
  assert (forall (c : str) (m : gmap str Conversation) x,
             dom (snd (setdefault c m)) = {[ c ]} ∪ dom m
             /\ dom (<[c := x]> (snd (setdefault c m))) = {[ c ]} ∪ dom m)
    as Hset.
  { intros c m x. unfold setdefault. destruct (m !! c) eqn:E; simpl.
    - apply (elem_of_dom_2 m) in E.
      assert (({[c]} : gset str) ∪ dom m = dom m) as Hin.
      { apply subseteq_union_1_L. by apply singleton_subseteq_l. }
      rewrite dom_insert_L. by rewrite Hin.
    - rewrite !dom_insert_L.
      by rewrite (assoc_L (∪)), (idemp_L (∪)). }
  destruct op as [tok|c|c r t|gen c text]; simpl.
  - by rewrite dom_insert_L.
  - unfold ensure_conversation.
    destruct (Hset c (_store st) new_conversation) as [H _].
    unfold setdefault in H.
    by destruct (_store st !! c).
  - unfold append_message.
    destruct (setdefault c (_store st)) as [c0 m] eqn:E. simpl.
    destruct (Hset c (_store st)
                {| history := history c0
                              ++ [ {| role := r; content := t |} ];
                   document_text := document_text c0;
                   document_chunks := document_chunks c0;
                   chunk_embeddings := chunk_embeddings c0 |}) as [_ H].
    by rewrite E in H.
  - unfold store_document.
    destruct (setdefault c (_store st)) as [c0 m] eqn:E.
    assert (forall x, dom (<[c := x]> m) = {[ c ]} ∪ dom (_store st)) as H.
    { intros x. destruct (Hset c (_store st) x) as [_ H].
      by rewrite E in H. }
    destruct (truthy _); [destruct (gen _)|]; simpl; apply H.
Qed.

(** X5.  Conversations are created, never removed: after any sequence
    of operations the stored identifiers are those stored before together
    with every identifier an operation named, so [total_conversations]
    never goes down. *)
Theorem conversations_only_grow (ops : list Op) (st : ConversationStore) :
  dom (_store (run ops st))
  = dom (_store st) ∪ list_to_set (map op_target ops)
  /\ total_conversations (fst (get_stats st))
     <= total_conversations (fst (get_stats (run ops st))).
Proof.
  assert (dom (_store (run ops st))
          = dom (_store st) ∪ list_to_set (map op_target ops)) as Hd.
  { revert st. induction ops as [|op ops IH]; intros st; simpl.
    - by rewrite (right_id_L ∅ (∪)).
    - rewrite IH, dom_run_op.
      rewrite (comm_L (∪) {[ op_target op ]}).
      by rewrite <- (assoc_L (∪)). }
  split; [exact Hd|]. simpl.
  rewrite <- !size_dom. apply subseteq_size. rewrite Hd.
  apply union_subseteq_l.
Qed.

End StoreTrace.

Module KeywordMore.
Import PyStr PySlice PySort PySortProps PyStrProps Store Rag KeywordSpec
  KeywordProps ChunkerSpec ChunkerProps KeywordMoreSpec.

(** *** Lower-casing and white space *)

Lemma lower_char_idem c : lower_char (lower_char c) = lower_char c.
Proof.
  destruct c as [[] [] [] [] [] [] [] []]; vm_compute; reflexivity.
Qed.

Lemma isspace_lower_char c : isspace (lower_char c) = isspace c.
Proof.
  destruct c as [[] [] [] [] [] [] [] []]; vm_compute; reflexivity.
Qed.

Lemma lower_idem x : lower (lower x) = lower x.
Proof.
  unfold lower. rewrite map_map. apply map_ext. apply lower_char_idem.
Qed.

Lemma split_blank x : blank x -> split x = [].
Proof.
  unfold split. induction 1 as [|c x Hc _ IH]; simpl; [reflexivity|].
  by rewrite Hc.
Qed.

Lemma lower_blank x : blank x -> blank (lower x).
Proof.
  unfold blank, lower. rewrite Forall_map. apply Forall_impl.
  intros c Hc. by rewrite isspace_lower_char.
Qed.

Lemma In_dedup w ws : In w (dedup ws) <-> In w ws.
Proof.
  induction ws as [|v ws IH]; simpl; [done|].
  rewrite filter_In, IH. split.
  - intros [->|[H _]]; auto.
  - intros [->|H]; [by left|].
    destruct (str_eqb v w) eqn:E.
    + apply str_eqb_eq in E. by left.
    + right. by split.
Qed.

Lemma filter_pos {A} (f : A -> bool) (l : list A) :
  0 < length (List.filter f l) <-> exists x, In x l /\ f x = true.
Proof.
  split.
  - destruct (List.filter f l) as [|x r] eqn:E; simpl; [lia|]. intros _.
    assert (In x (List.filter f l)) as H by (rewrite E; simpl; auto).
    apply filter_In in H. by exists x.
  - intros (x & Hx & Hf).
    assert (In x (List.filter f l)) as H by (by apply filter_In).
    destruct (List.filter f l); [done|simpl; lia].
Qed.

(** X13.  The lexical score ignores case: lower-casing the question
    or the chunk does not change it. *)
Theorem lexical_score_ignores_case (question chunk : str) :
  lexical_score (lower question) chunk = lexical_score question chunk
  /\ lexical_score question (lower chunk) = lexical_score question chunk.
Proof.
  unfold lexical_score, query_words. by rewrite !lower_idem.
Qed.

(** X14.  A chunk has a positive lexical score exactly when some
    white-space-delimited word of the lower-cased question occurs in the
    lower-cased chunk as a substring (inside a longer word too); and the
    score never exceeds the number of words of the question. *)
Theorem lexical_score_by_substring (question chunk : str) :
  (0 < lexical_score question chunk
   <-> exists word, In word (split (lower question))
                    /\ occurs_in word (lower chunk))
  /\ lexical_score question chunk <= length (split (lower question)).
Proof.
  unfold lexical_score, query_words. split.
  - rewrite filter_pos. split.
    + intros (w & Hw & Hc). exists w. split; [by apply In_dedup|].
      by apply contains_spec.
    + intros (w & Hw & Hc). exists w. split; [by apply In_dedup|].
      by apply contains_spec.
  - etransitivity; [apply filter_length_le|].
    induction (split (lower question)) as [|w ws IH]; simpl; [lia|].
    pose proof (filter_length_le (fun v => negb (str_eqb w v)) (dedup ws)).
    lia.
Qed.

(** *** The previous answer *)

(** X17.  [_get_recent_assistant_answer] returns the content of the
    last assistant turn of the history, and nothing exactly when the
    history has no assistant turn. *)
Theorem recent_assistant_answer_spec (history : list Message) :
  match _get_recent_assistant_answer history with
  | None => Forall (fun m => ~ is_assistant m) history
  | Some answer =>
      exists before msg after,
        history = before ++ msg :: after
        /\ is_assistant msg /\ content msg = answer
        /\ Forall (fun m => ~ is_assistant m) after
  end.
Proof.
  unfold _get_recent_assistant_answer, is_assistant.
  induction history as [|m history IH] using rev_ind;
    [simpl; constructor|].
  rewrite rev_app_distr. cbn [rev app List.find].
  destruct (str_eqb (role m) (s "assistant")) eqn:E.
  - apply str_eqb_eq in E. exists history, m, []. by repeat split.
  - assert (role m <> s "assistant") as Hm.
    { intros H. apply str_eqb_eq in H. congruence. }
    destruct (List.find _ (rev history)) as [msg|].
    + destruct IH as (before & msg' & after & -> & Hr & Hc & Ha).
      exists before, msg', (after ++ [m]). repeat split; try done.
      * by rewrite <- app_assoc.
      * apply Forall_app. split; [done|]. by constructor.
    + apply Forall_app. split; [done|]. by constructor.
Qed.

Section Engine.
Variable chat_completion : list Message -> Q -> Z -> option str.

(** X15.  A question of white space only finds nothing: the keyword
    fallback engine answers that no relevant information was found, with no
    evidence, whatever the chunks, the history and the generation call
    are. *)
Theorem blank_question_not_found
    (question : str) (chunks : list str) (history : list Message)
    (prev : option str) :
  (forall c, In c question -> isspace c = true) ->
  _fallback_keyword_search chat_completion question chunks history prev
  = (not_found_answer, []).
Proof.
  intros Hb. assert (blank question) as Hblank
    by (unfold blank; by rewrite Forall_forall).
  assert (forall chunk, In chunk chunks -> lexical_score question chunk = 0)
    as Hz.
  { intros chunk _. unfold lexical_score, query_words.
    by rewrite (split_blank _ (lower_blank _ Hblank)). }
  destruct (keyword_no_match chat_completion question chunks history prev Hz)
    as (He & _ & _ & Hn).
  assert (~ is_follow_up (lower (strip question))) as Hnf.
  { apply strip_nil_iff in Hblank. rewrite Hblank. by intros [H _]. }
  specialize (Hn Hnf).
  destruct (_fallback_keyword_search _ _ _ _ _) as [a e]. simpl in *.
  by subst.
Qed.

End Engine.


(** *** What the evidence is *)

Lemma keyword_evidence chat question chunks history prev :
  snd (_fallback_keyword_search chat question chunks history prev)
  = retrieved_of (scored_chunks question chunks).
Proof.
  unfold _fallback_keyword_search.
  destruct (scored_chunks question chunks) as [|p l] eqn:E.
  { change (truthy (map snd (slice_to (@nil (nat * str)) 3))) with false.
    cbn [negb]. by destruct (_is_follow_up_question question). }
  rewrite <- E.
  assert (truthy (map snd (slice_to (scored_chunks question chunks) 3))
          = true) as -> by (rewrite E; reflexivity).
  cbn [negb]. by destruct (chat _ _ _).
Qed.

Lemma retrieved_of_from_chunks question chunks :
  Forall (fun e => In (fst e) chunks)
    (retrieved_of (scored_chunks question chunks))
  /\ length (retrieved_of (scored_chunks question chunks)) <= 3.
Proof.
  unfold retrieved_of. rewrite slice_to_nonneg by lia.
  change (Z.to_nat 3) with 3. split.
  - rewrite Forall_map. apply Forall_take. rewrite Forall_forall.
    intros p Hp. simpl. by apply scored_chunks_in in Hp as [? _].
  - rewrite length_map. apply firstn_le_length.
Qed.

Lemma blank_chunks text chunk_size overlap :
  (forall c, In c text -> isspace c = true) ->
  Chunker.chunk_text_smart text chunk_size overlap = [].
Proof. apply ChunkerMore.chunks_nil_iff. Qed.

Section Orchestrator.
Variable row_similarity : Vec -> Vec -> Q.
Variable generate_embeddings : list str -> option (list Vec).

(** X18.  The evidence [chat_with_rag] returns does not depend on the
    generation call nor on how scores are printed: it is the same whether
    generation succeeds, fails or answers differently. *)
Theorem evidence_ignores_generation
    (format_a format_b : Q -> str)
    (chat_a chat_b : list Message -> Q -> Z -> option str)
    (cid question : str) (st : ConversationStore) :
  snd (chat_with_rag row_similarity format_a generate_embeddings chat_a
         cid question st)
  = snd (chat_with_rag row_similarity format_b generate_embeddings chat_b
           cid question st).
Proof.
  rewrite !chat_with_rag_reads. cbv zeta.
  destruct (negb (truthy (fst (get_document_chunks cid st))));
    [reflexivity|].
  destruct (fst (get_chunk_embeddings cid st)) as [rows|];
    [|by rewrite !keyword_evidence].
  destruct (query_embedding_of generate_embeddings question) as [qv|];
    [|by rewrite !keyword_evidence].
  destruct (negb (truthy (Embeddings.find_similar_chunks _ _ _ _ _ _)));
    [by rewrite !keyword_evidence|].
  by destruct (chat_a _ _ _), (chat_b _ _ _).
Qed.

Variable format_2f : Q -> str.
Variable chat_completion : list Message -> Q -> Z -> option str.

Lemma evidence_bound (cid question : str) (st : ConversationStore) :
  let evidence :=
    snd (chat_with_rag row_similarity format_2f generate_embeddings
           chat_completion cid question st) in
  Forall (fun e => In (fst e) (fst (get_document_chunks cid st))) evidence
  /\ length evidence <= 4.
Proof.
  intros evidence. subst evidence.
  rewrite chat_with_rag_reads. cbv zeta.
  set (chunks := fst (get_document_chunks cid st)).
  pose proof (retrieved_of_from_chunks question chunks) as [Hk1 Hk2].
  destruct (negb (truthy chunks)); [split; [constructor|simpl; lia]|].
  destruct (fst (get_chunk_embeddings cid st)) as [rows|];
    [|rewrite keyword_evidence; split; [done|lia]].
  destruct (query_embedding_of generate_embeddings question) as [qv|];
    [|rewrite keyword_evidence; split; [done|lia]].
  pose proof (EngineMore.find_similar_chunks_from_chunks row_similarity
                qv (Some rows) chunks 4 (2 # 10)%Q) as Hs1.
  pose proof (EngineMore.find_similar_chunks_length row_similarity
                qv (Some rows) chunks 4 (2 # 10)%Q ltac:(lia)) as Hs2.
  change (Z.to_nat 4) with 4 in Hs2.
  destruct (negb (truthy (Embeddings.find_similar_chunks _ _ _ _ _ _)));
    [rewrite keyword_evidence; split; [done|lia]|].
  by destruct (chat_completion _ _ _).
Qed.

(** X19.  Every evidence entry [chat_with_rag] returns carries a
    chunk stored for the conversation, and there are at most four. *)
Theorem evidence_from_stored_chunks
    (cid question : str) (st : ConversationStore) :
  let evidence :=
    snd (chat_with_rag row_similarity format_2f generate_embeddings
           chat_completion cid question st) in
  Forall (fun e => In (fst e) (fst (get_document_chunks cid st))) evidence
  /\ length evidence <= 4.
Proof. apply evidence_bound. Qed.

(** X20.  A conversation that is unknown, or whose upload was a text
    of white space only, is answered that no document has been uploaded,
    with no evidence, whatever the question and the collaborators are. *)
Theorem no_document_without_chunks
    (cid question : str) (st : ConversationStore)
    (upload_embeddings : list str -> option (list Vec)) (text : str) :
  (_store st !! cid = None ->
   chat_with_rag row_similarity format_2f generate_embeddings
     chat_completion cid question st
   = (no_document_answer, []))
  /\ ((forall c, In c text -> isspace c = true) ->
      chat_with_rag row_similarity format_2f generate_embeddings
        chat_completion cid question
        (snd (store_document upload_embeddings cid text st))
      = (no_document_answer, [])).
Proof.
  split.
  - intros Hn. rewrite chat_with_rag_reads. cbv zeta.
    unfold get_document_chunks, get_or_new. by rewrite Hn.
  - intros Hb. rewrite chat_with_rag_reads. cbv zeta.
    assert (fst (get_document_chunks cid
                   (snd (store_document upload_embeddings cid text st)))
            = []) as ->; [|reflexivity].
    unfold get_document_chunks, get_or_new, store_document.
    destruct (setdefault cid (_store st)) as [c0 m].
    rewrite (blank_chunks text 500 100 Hb). simpl.
    by rewrite lookup_insert_eq.
Qed.

End Orchestrator.

End KeywordMore.

Module PromptProps.
Import PyStr PySlice PySort PySortProps PyStrProps Store Rag KeywordSpec
  KeywordProps KeywordMoreSpec.

Lemma occurs_in_refl x : occurs_in x x.
Proof. exists [], []. by rewrite app_nil_r. Qed.

Lemma occurs_in_app_r a x y : occurs_in x y -> occurs_in x (a ++ y).
Proof.
  intros (pre & post & ->). exists (a ++ pre), post.
  by rewrite <- app_assoc.
Qed.

Lemma occurs_in_app_l b x y : occurs_in x y -> occurs_in x (y ++ b).
Proof.
  intros (pre & post & ->). exists pre, (post ++ b).
  by rewrite <- !app_assoc.
Qed.

Lemma occurs_in_trans x y z : occurs_in x y -> occurs_in y z -> occurs_in x z.
Proof.
  intros Hxy (pre & post & ->). by apply occurs_in_app_r, occurs_in_app_l.
Qed.

Lemma occurs_in_join sep p ps : In p ps -> occurs_in p (join sep ps).
Proof.
  induction ps as [|p0 ps IH]; [done|].
  intros Hin. destruct ps as [|p1 ps].
  - destruct Hin as [->|[]]. apply occurs_in_refl.
  - change (join sep (p0 :: p1 :: ps))
      with (p0 ++ sep ++ join sep (p1 :: ps)).
    destruct Hin as [->|Hin].
    + apply occurs_in_app_l, occurs_in_refl.
    + by apply occurs_in_app_r, occurs_in_app_r, IH.
Qed.

(** Finds [x] in a chain of concatenations. *)
Ltac find_part :=
  first [ apply occurs_in_refl
        | apply occurs_in_app_l; apply occurs_in_refl
        | assumption
        | apply occurs_in_app_l; assumption
        | apply occurs_in_app_r; find_part ].

Lemma slice_from_last {A} (l : list A) (n : Z) :
  (0 < n)%Z ->
  length (slice_from l (- n)) <= Z.to_nat n
  /\ Forall (fun x => In x l) (slice_from l (- n)).
Proof.
  intros Hn. unfold slice_from.
  replace (- n <? 0)%Z with true by (symmetry; apply Z.ltb_lt; lia).
  split.
  - rewrite length_skipn. lia.
  - rewrite Forall_forall. intros x Hx.
    rewrite <- (firstn_skipn (Z.to_nat (Z.of_nat (length l) + - n)) l).
    apply in_or_app. by right.
Qed.

Lemma recent_turns_spec (n : Z) (history : list Message) :
  (0 < n)%Z ->
  length (recent_turns n history) <= Z.to_nat n
  /\ Forall (fun m => In m history /\ user_or_assistant m)
       (recent_turns n history).
Proof.
  intros Hn. destruct (slice_from_last history n Hn) as [Hl Hin].
  unfold recent_turns. split.
  - rewrite length_map.
    etransitivity; [apply filter_length_le|exact Hl].
  - rewrite Forall_map, Forall_forall. intros m Hm.
    apply filter_In in Hm as [Hm Hr].
    rewrite Forall_forall in Hin. destruct m as [r c]. simpl in *.
    split; [by apply Hin|]. unfold user_or_assistant. simpl.
    apply orb_true_iff in Hr as [Hr|Hr]; apply str_eqb_eq in Hr; auto.
Qed.

Lemma enumerate_snd_In {A} (l : list A) x :
  In x l -> exists i, In (i, x) (enumerate l).
Proof.
  intros Hx. rewrite <- (enumerate_snd l) in Hx.
  apply in_map_iff in Hx as ([i y] & <- & Hin). by exists i.
Qed.

(** X22.  What is sent to the generation call, on both paths: the
    system prompt first; then at most 8 (semantic path) or 6 (keyword path)
    turns, each a turn of the history with role user or assistant, so no
    system notice is forwarded; last one user message, whose content
    contains the question and every retrieved chunk. *)
Theorem prompt_messages_shape
    (format_2f : Q -> str) (question : str)
    (similar_chunks : list (str * Q)) (relevant_chunks : list str)
    (history : list Message) (prev : option str) :
  (exists turns text,
      semantic_messages format_2f question similar_chunks history prev
      = system_message :: turns ++ [user_message text]
      /\ length turns <= 8
      /\ Forall (fun m => In m history /\ user_or_assistant m) turns
      /\ occurs_in question text
      /\ Forall (fun e => occurs_in (fst e) text) similar_chunks)
  /\ (exists turns text,
         keyword_messages question relevant_chunks history prev
         = system_message :: turns ++ [user_message text]
         /\ length turns <= 6
         /\ Forall (fun m => In m history /\ user_or_assistant m) turns
         /\ occurs_in question text
         /\ Forall (fun chunk => occurs_in chunk text) relevant_chunks).
Proof.
  split.
  - destruct (recent_turns_spec 8 history ltac:(lia)) as [Hl Hf].
    eexists _, _. split; [reflexivity|]. split; [exact Hl|].
    split; [exact Hf|]. split.
    + unfold _build_user_prompt. find_part.
    + rewrite Forall_forall. intros [chunk v] He. simpl.
      apply enumerate_snd_In in He as [i Hi].
      set (part := fun p : nat * (str * Q) =>
             s "[Excerpt " ++ of_nat (fst p + 1) ++ s " (relevance: "
             ++ format_2f (snd (snd p)) ++ s ")]:" ++ nl ++ fst (snd p)).
      assert (occurs_in chunk
                (join (nl ++ nl) (map part (enumerate similar_chunks))))
        as Hc.
      { eapply occurs_in_trans; [|apply occurs_in_join, in_map, Hi].
        unfold part. simpl fst. simpl snd. find_part. }
      unfold _build_user_prompt. find_part.
  - destruct (recent_turns_spec 6 history ltac:(lia)) as [Hl Hf].
    eexists _, _. split; [reflexivity|]. split; [exact Hl|].
    split; [exact Hf|]. split.
    + find_part.
    + rewrite Forall_forall. intros chunk He.
      apply enumerate_snd_In in He as [i Hi].
      set (part := fun p : nat * str =>
             s "[Excerpt " ++ of_nat (fst p + 1) ++ s "]:" ++ nl ++ snd p).
      assert (occurs_in chunk
                (join (nl ++ nl) (map part (enumerate relevant_chunks))))
        as Hc.
      { eapply occurs_in_trans; [|apply occurs_in_join, in_map, Hi].
        unfold part. simpl fst. simpl snd. find_part. }
      find_part.
Qed.

End PromptProps.

Module GroqProps.
Import PyStr PyStrProps Store Groq KeywordMoreSpec PromptProps.


End GroqProps.

Module ServicesProps.
Import PyStr PyStrMore PySlice PySort PySortProps PyStrProps Store Rag
  Models Services StoreTraceSpec ServicesSpec.
Import ChunkerSpec ChunkerProps.

Lemma strip_idem x : strip (strip x) = strip x.
Proof.
  destruct (strip x) as [|c y] eqn:E; [reflexivity|].
  rewrite <- E. assert (strip x <> []) as Hne by (by rewrite E).
  destruct (strip_clean x Hne) as [H1 H2]. by apply strip_fixed.
Qed.

Lemma extract_bullets_facts (answer : str) :
  let key_points := _extract_bullets answer in
  let bullets := List.filter is_bullet (splitlines answer) in
  1 <= length key_points <= 5
  /\ (bullets = [] -> key_points = [firstn 120 answer])
  /\ (bullets <> [] ->
      key_points = firstn 5 (map bullet_text bullets)
      /\ Forall (fun point => strip point = point) key_points).
Proof.
  intros key_points bullets. subst key_points. unfold _extract_bullets.
  fold bullets. fold bullet_text.
  change (map (fun line => strip (strip_chars (s "-* ") line)) bullets)
    with (map bullet_text bullets).
  rewrite !slice_to_nonneg by lia.
  change (Z.to_nat 5) with 5. change (Z.to_nat 120) with 120.
  destruct bullets as [|b bs] eqn:E.
  - simpl. repeat split; try lia; done.
  - cbn [map firstn truthy]. split; [|split; [done|]].
    + cbn [length]. pose proof (firstn_le_length 4 (map bullet_text bs)).
      lia.
    + intros _. split; [reflexivity|].
      change (bullet_text b :: firstn 4 (map bullet_text bs))
        with (firstn 5 (map bullet_text (b :: bs))).
      apply Forall_take. rewrite Forall_map. apply Forall_forall.
      intros line _. apply strip_idem.
Qed.

(** X24.  [_extract_bullets] returns between one and five key points:
    the first 120 characters of the answer when no line is a bullet line
    (a line whose first character after white space is a hyphen or an
    asterisk), and otherwise the first five bullet lines, each with
    hyphens, asterisks and spaces removed from both of its ends and then
    trimmed of white space, so that none has white space at either
    end. *)
Theorem extract_bullets_spec (answer : str) :
  let key_points := _extract_bullets answer in
  let bullets := List.filter is_bullet (splitlines answer) in
  1 <= length key_points <= 5
  /\ (bullets = [] -> key_points = [firstn 120 answer])
  /\ (bullets <> [] ->
      key_points = firstn 5 (map bullet_text bullets)
      /\ Forall (fun point => strip point = point) key_points).
Proof. apply extract_bullets_facts. Qed.

Lemma append_message_pair cid r c st :
  append_message cid r c st = (tt, run_op st (OpAppend cid r c)).
Proof.
  unfold run_op, append_message.
  by destruct (setdefault cid (_store st)).
Qed.

Section Handlers.
Variable row_similarity : Vec -> Vec -> Q.
Variable format_2f : Q -> str.
Variable generate_embeddings : list str -> option (list Vec).
Variable chat_completion : list Message -> Q -> Z -> option str.

(** The store and the evidence of one chat turn. *)
Lemma chat_turn (request : FollowUpRequest) (st : ConversationStore) :
  let cid := request_conversation_id request in
  let asked := run_op st (OpAppend cid (s "user") (question request)) in
  let found :=
    chat_with_rag row_similarity format_2f generate_embeddings
      chat_completion cid (question request) asked in
  chat_with_rag_context row_similarity format_2f generate_embeddings
    chat_completion request st
  = ({| conversation_id := cid;
        answer := fst found;
        key_points := _extract_bullets (fst found);
        sources :=
          map (fun p => {| excerpt_id := fst p + 1;
                           content := fst (snd p);
                           similarity := snd (snd p) |})
              (enumerate (snd found)) |},
     run_op asked (OpAppend cid (s "assistant") (fst found))).
Proof.
  intros cid asked found. subst cid asked found.
  unfold chat_with_rag_context. rewrite append_message_pair.
  cbv beta iota zeta.
  destruct (chat_with_rag _ _ _ _ _ _ _) as [ans ev].
  rewrite append_message_pair. reflexivity.
Qed.

(** X25.  A chat turn appends the question as a user message and then
    the answer as an assistant message to the history of its conversation,
    and changes nothing else: the document fields stay, other conversations
    stay, [total_queries] grows by one and [documents_indexed] stays. *)
Theorem chat_turn_effect (request : FollowUpRequest)
    (st : ConversationStore) :
  let cid := request_conversation_id request in
  let response :=
    fst (chat_with_rag_context row_similarity format_2f
           generate_embeddings chat_completion request st) in
  let st' :=
    snd (chat_with_rag_context row_similarity format_2f
           generate_embeddings chat_completion request st) in
  history (get_or_new cid st')
  = history (get_or_new cid st)
    ++ [ {| role := s "user"; Store.content := question request |};
         {| role := s "assistant"; Store.content := answer response |} ]
  /\ fields_of (get_or_new cid st') = fields_of (get_or_new cid st)
  /\ (forall other, other <> cid ->
                    _store st' !! other = _store st !! other)
  /\ total_queries (fst (get_stats st'))
     = total_queries (fst (get_stats st)) + 1
  /\ documents_indexed (fst (get_stats st'))
     = documents_indexed (fst (get_stats st)).
Proof.
  intros cid response st'. subst response st'.
  rewrite (chat_turn request st). cbv zeta. fold cid. cbn [fst snd answer].
  generalize (fst (chat_with_rag row_similarity format_2f
                     generate_embeddings chat_completion cid
                     (question request)
                     (run_op st (OpAppend cid (s "user")
                                   (question request))))).
  intros ans.
  destruct (StoreTrace.counters_run_op
              (run_op st (OpAppend cid (s "user") (question request)))
              (OpAppend cid (s "assistant") ans)) as [Hq2 Hu2].
  destruct (StoreTrace.counters_run_op st
              (OpAppend cid (s "user") (question request))) as [Hq1 Hu1].
  repeat split.
  - rewrite !StoreTrace.get_or_new_run_op.
    rewrite !bool_decide_eq_true_2 by done. simpl.
    by rewrite <- app_assoc.
  - rewrite !StoreTrace.get_or_new_run_op.
    by rewrite !bool_decide_eq_true_2 by done.
  - intros other Hne.
    rewrite !StoreTrace.lookup_run_op_other by (simpl; congruence).
    reflexivity.
  - cbn [get_stats fst total_queries]. rewrite Hq2, Hq1. simpl. lia.
  - cbn [get_stats fst documents_indexed]. rewrite Hu2, Hu1. simpl. lia.
Qed.

(** X26.  The response of a chat turn echoes the conversation
    identifier, carries the answer and the evidence that [chat_with_rag]
    gives on the store that already holds the question, numbers the sources
    1, 2, ... in evidence order, and has at most four sources and between
    one and five key points. *)
Theorem chat_turn_response (request : FollowUpRequest)
    (st : ConversationStore) :
  let cid := request_conversation_id request in
  let response :=
    fst (chat_with_rag_context row_similarity format_2f
           generate_embeddings chat_completion request st) in
  let found :=
    chat_with_rag row_similarity format_2f generate_embeddings
      chat_completion cid (question request)
      (snd (append_message cid (s "user") (question request) st)) in
  conversation_id response = cid
  /\ answer response = fst found
  /\ map (fun src => (content src, similarity src)) (sources response)
     = snd found
  /\ map excerpt_id (sources response)
     = seq 1 (length (sources response))
  /\ length (sources response) <= 4
  /\ 1 <= length (key_points response) <= 5.
Proof.
  intros cid response found. subst response.
  rewrite (chat_turn request st). cbv zeta. fold cid.
  change (run_op st (OpAppend cid (s "user") (question request)))
    with (snd (append_message cid (s "user") (question request) st)).
  fold found. cbn [fst conversation_id answer sources key_points].
  split; [reflexivity|]. split; [reflexivity|].
  assert (length (snd found) <= 4) as Hlen.
  { subst found.
    apply (KeywordMore.evidence_bound row_similarity
             generate_embeddings format_2f chat_completion). }
  split; [|split; [|split]].
  - rewrite map_map. simpl.
    rewrite <- (enumerate_snd (snd found)) at 2. apply map_ext.
    by intros [i [c v]].
  - rewrite map_map, length_map, enumerate_length. simpl.
    rewrite <- (map_map fst (fun i => i + 1)), enumerate_fst.
    rewrite <- seq_shift. apply map_ext. intros i. lia.
  - by rewrite length_map, enumerate_length.
  - apply extract_bullets_facts.
Qed.

Lemma store_document_pair gen cid text st :
  store_document gen cid text st = (tt, run_op st (OpStore gen cid text)).
Proof.
  unfold run_op, store_document.
  destruct (setdefault cid (_store st)).
  by destruct (if truthy _ then _ else _).
Qed.

Lemma ensure_conversation_pair cid st :
  ensure_conversation cid st = (cid, run_op st (OpEnsure cid)).
Proof.
  unfold run_op, ensure_conversation. by destruct (_store st !! cid).
Qed.

Lemma upload_run (document : ParsedDocument) (cid : str)
    (st : ConversationStore) :
  upload_document generate_embeddings (Some document) cid st
  = (Some document,
     run [ OpEnsure cid;
           OpStore generate_embeddings cid (text document);
           OpAppend cid (role (upload_notice document))
             (Store.content (upload_notice document)) ] st).
Proof.
  unfold upload_document.
  rewrite ensure_conversation_pair, store_document_pair,
    append_message_pair.
  reflexivity.
Qed.

Lemma upload_facts (document : ParsedDocument) (cid : str)
    (st : ConversationStore) :
  let r := upload_document generate_embeddings (Some document) cid st in
  fst r = Some document
  /\ history (get_or_new cid (snd r))
     = history (get_or_new cid st) ++ [upload_notice document]
  /\ fields_of (get_or_new cid (snd r))
     = stored_fields generate_embeddings (text document)
  /\ (forall other, other <> cid ->
                    _store (snd r) !! other = _store st !! other)
  /\ total_queries (fst (get_stats (snd r)))
     = total_queries (fst (get_stats st))
  /\ documents_indexed (fst (get_stats (snd r)))
     = documents_indexed (fst (get_stats st))
       + (if is_indexed (OpStore generate_embeddings cid (text document))
          then 1 else 0).
Proof.
  intros r. subst r. rewrite upload_run. cbn [fst snd run fold_left].
  set (notice := upload_notice document).
  destruct (StoreTrace.counters_run_op st (OpEnsure cid)) as [Hq1 Hu1].
  destruct (StoreTrace.counters_run_op (run_op st (OpEnsure cid))
              (OpStore generate_embeddings cid (text document)))
    as [Hq2 Hu2].
  destruct (StoreTrace.counters_run_op
              (run_op (run_op st (OpEnsure cid))
                 (OpStore generate_embeddings cid (text document)))
              (OpAppend cid (role notice) (Store.content notice)))
    as [Hq3 Hu3].
  split; [reflexivity|]. split; [|split; [|split; [|split]]].
  - rewrite !StoreTrace.get_or_new_run_op.
    rewrite !bool_decide_eq_true_2 by done. reflexivity.
  - rewrite !StoreTrace.get_or_new_run_op.
    rewrite !bool_decide_eq_true_2 by done.
    unfold fields_of, stored_fields. reflexivity.
  - intros other Hne.
    rewrite !StoreTrace.lookup_run_op_other by (simpl; congruence).
    reflexivity.
  - cbn [get_stats fst total_queries]. rewrite Hq3, Hq2, Hq1. simpl. lia.
  - cbn [get_stats fst documents_indexed]. rewrite Hu3, Hu2, Hu1.
    cbn [is_indexed]. simpl (if false then 1 else 0).
    destruct (is_indexed _); lia.
Qed.

(** X27.  An upload whose parsing succeeds returns the parsed
    document, replaces the document fields of the conversation by those of
    the new text, appends one system notice to its history, leaves other
    conversations and [total_queries] alone, and raises
    [documents_indexed] by one exactly when the text has chunks and the
    embedding call returned. *)
Theorem upload_effect (document : ParsedDocument) (cid : str)
    (st : ConversationStore) :
  let r := upload_document generate_embeddings (Some document) cid st in
  fst r = Some document
  /\ history (get_or_new cid (snd r))
     = history (get_or_new cid st) ++ [upload_notice document]
  /\ fields_of (get_or_new cid (snd r))
     = stored_fields generate_embeddings (text document)
  /\ (forall other, other <> cid ->
                    _store (snd r) !! other = _store st !! other)
  /\ total_queries (fst (get_stats (snd r)))
     = total_queries (fst (get_stats st))
  /\ documents_indexed (fst (get_stats (snd r)))
     = documents_indexed (fst (get_stats st))
       + (if is_indexed (OpStore generate_embeddings cid (text document))
          then 1 else 0).
Proof. apply upload_facts. Qed.

(** X28.  An upload whose parsing raises has already made sure the
    conversation exists: afterwards the identifier is stored, an existing
    conversation and all others are unchanged, the two counters are
    unchanged and [total_conversations] grew by one only if the identifier
    was new. *)
Theorem failed_upload_effect (cid : str) (st : ConversationStore) :
  let r := upload_document generate_embeddings None cid st in
  fst r = None
  /\ is_Some (_store (snd r) !! cid)
  /\ get_or_new cid (snd r) = get_or_new cid st
  /\ (forall other, other <> cid ->
                    _store (snd r) !! other = _store st !! other)
  /\ fst (get_stats (snd r))
     = {| total_conversations :=
            if bool_decide (is_Some (_store st !! cid))
            then total_conversations (fst (get_stats st))
            else total_conversations (fst (get_stats st)) + 1;
          documents_indexed := documents_indexed (fst (get_stats st));
          total_queries := total_queries (fst (get_stats st)) |}.
Proof.
  intros r. subst r. unfold upload_document.
  rewrite ensure_conversation_pair. cbn [fst snd].
  split; [reflexivity|]. split; [|split; [|split]].
  - simpl. unfold ensure_conversation.
    destruct (_store st !! cid) eqn:E; simpl.
    + by rewrite E.
    + by rewrite lookup_insert_eq.
  - by rewrite StoreTrace.get_or_new_run_op.
  - intros other Hne.
    by rewrite StoreTrace.lookup_run_op_other by (simpl; congruence).
  - simpl. unfold ensure_conversation.
    destruct (_store st !! cid) eqn:E; simpl.
    + reflexivity.
    + rewrite map_size_insert_None by exact E. f_equal. lia.
Qed.

End Handlers.

End ServicesProps.

Module RagMore.
Import PyStr PySlice PySort PySortProps PyStrProps Store Rag KeywordSpec
  KeywordProps KeywordMoreSpec.

Lemma max_le_bound (l : list nat) (b : nat) :
  Forall (fun n => n <= b) l -> fold_right Nat.max 0 l <= b.
Proof. induction 1; cbn [fold_right] in *; cbv beta in *; lia. Qed.

Lemma normalize_self a : 0 < a -> (normalize a a == 1)%Q.
Proof.
  intros Ha. unfold normalize.
  destruct (a =? 0) eqn:E; [apply Nat.eqb_eq in E; lia|].
  apply Qmult_inv_r. intros H.
  unfold Qeq in H. simpl in H. lia.
Qed.

Section Engine.
Variable chat_completion : list Message -> Q -> Z -> option str.

(** X16.  When some chunk has a positive lexical score, the first
    evidence entry of the keyword fallback engine is a stored chunk of the
    highest raw score and its relevance equals 1. *)
Theorem keyword_best_scores_one
    (question : str) (chunks : list str) (history : list Message)
    (prev : option str) :
  (exists chunk, In chunk chunks /\ 0 < lexical_score question chunk) ->
  exists chunk relevance rest,
    snd (_fallback_keyword_search chat_completion question chunks history
           prev) = (chunk, relevance) :: rest
    /\ (relevance == 1)%Q
    /\ In chunk chunks
    /\ forall other, In other chunks ->
         lexical_score question other <= lexical_score question chunk.
Proof.
  intros Hex. apply scored_chunks_nonempty in Hex as Hne.
  rewrite KeywordMore.keyword_evidence. unfold retrieved_of.
  rewrite (scored_chunks_max _ _ Hne).
  pose proof (scored_chunks_sorted question chunks) as Hs.
  pose proof (scored_chunks_max question chunks Hne) as Hm.
  assert (forall p, In p (scored_chunks question chunks) ->
             In (snd p) chunks /\ fst p = lexical_score question (snd p)
             /\ 0 < fst p) as Hin by apply scored_chunks_in.
  destruct (scored_chunks question chunks) as [|[n c] l] eqn:E; [done|].
  destruct (Hin (n, c)) as (Hc & Hn & Hpos); [simpl; auto|]. simpl in *.
  assert (best_score question chunks = n) as Hbest.
  { apply Nat.le_antisymm.
    - rewrite <- Hm. unfold max_score. simpl.
      apply StronglySorted_inv in Hs as [_ Hall].
      apply Nat.max_lub; [lia|]. apply max_le_bound.
      rewrite Forall_map. eapply Forall_impl; [|exact Hall]. by intros p.
    - rewrite Hn. apply max_upper. by apply in_map. }
  exists c, (normalize n (best_score question chunks)), 
    (map (fun p => (snd p, normalize (fst p) (best_score question chunks)))
       (firstn 2 l)).
  split; [reflexivity|]. rewrite Hbest. split; [by apply normalize_self|].
  split; [exact Hc|]. intros other Ho. rewrite <- Hn, <- Hbest.
  apply max_upper. by apply in_map.
Qed.

End Engine.

Section Orchestrator.
Variable row_similarity : Vec -> Vec -> Q.
Variable format_2f : Q -> str.
Variable generate_embeddings : list str -> option (list Vec).
Variable chat_completion : list Message -> Q -> Z -> option str.

(** X21.  When the generation call returns a text, [chat_with_rag]
    passes it on unchanged as the answer, on the semantic path (with the
    retrieved chunks as evidence) and on the keyword path. *)
Theorem generation_success_passes_answer
    (cid question : str) (st : ConversationStore) (generated : str) :
  let hist := fst (get_history cid st) in
  let prev := _get_recent_assistant_answer hist in
  let chunks := fst (get_document_chunks cid st) in
  let emb := fst (get_chunk_embeddings cid st) in
  let result :=
    chat_with_rag row_similarity format_2f generate_embeddings
      chat_completion cid question st in
  (forall qv,
      let similar :=
        Embeddings.find_similar_chunks row_similarity qv emb chunks
          4 (2 # 10)%Q in
      chunks <> [] -> emb <> None ->
      query_embedding_of generate_embeddings question = Some qv ->
      similar <> [] ->
      chat_completion
        (semantic_messages format_2f question similar hist prev)
        (3 # 10)%Q 1000%Z = Some generated ->
      result = (generated, similar))
  /\ (let scored := scored_chunks question chunks in
      keyword_path row_similarity generate_embeddings question chunks emb ->
      scored <> [] ->
      chat_completion
        (keyword_messages question (map snd (firstn 3 scored)) hist prev)
        (3 # 10)%Q 800%Z = Some generated ->
      fst result = generated).
Proof.
  intros hist prev chunks emb result. subst result.
  rewrite chat_with_rag_reads. cbv zeta.
  fold hist. fold prev. fold chunks. fold emb.
  clearbody prev. clearbody hist chunks emb. split.
  - intros qv. destruct emb as [rows|]; [|by intros _ He].
    set (similar := Embeddings.find_similar_chunks _ _ _ _ _ _).
    intros Hc _ Hq Hs Hok.
    rewrite (truthy_true chunks Hc). cbn [negb].
    rewrite Hq. cbv beta iota. fold similar.
    rewrite (truthy_true similar Hs). cbn [negb]. by rewrite Hok.
  - set (scored := scored_chunks question chunks).
    intros [Hc Hp] Hne Hok.
    rewrite (truthy_true chunks Hc). cbn [negb].
    assert (fst (_fallback_keyword_search chat_completion question chunks
                   hist prev) = generated) as Hk.
    { unfold _fallback_keyword_search. fold scored.
      rewrite !slice_to_nonneg by lia. change (Z.to_nat 3) with 3.
      assert (truthy (map snd (firstn 3 scored)) = true) as ->
        by (destruct scored; [done|reflexivity]).
      cbn [negb]. by rewrite Hok. }
    destruct Hp as [->|[Hq|(qv & Hq & Hs)]].
    + exact Hk.
    + rewrite Hq. by destruct emb.
    + rewrite Hq. destruct emb; [|exact Hk]. by rewrite Hs.
Qed.

End Orchestrator.

End RagMore.

Module ChunkerBound.
Import PyStr PySlice PyStrProps Chunker ChunkerSpec ChunkerProps.

Lemma add_paragraph_bound chunk_size chunks current para :
  (len para <= chunk_size)%Z ->
  Forall (fun c => (len c <= chunk_size + 1)%Z) chunks ->
  (len current <= chunk_size + 1)%Z ->
  Forall (fun c => (len c <= chunk_size + 1)%Z)
    (fst (add_paragraph chunk_size (chunks, current) para))
  /\ (len (snd (add_paragraph chunk_size (chunks, current) para))
      <= chunk_size + 1)%Z.
Proof.
  intros Hp Hc Hcur. unfold add_paragraph.
  destruct (len current + len para <? chunk_size)%Z eqn:E; cbn [fst snd].
  - split; [exact Hc|]. apply Z.ltb_lt in E.
    destruct (truthy current); [|lia].
    unfold len in *. rewrite !length_app.
    change (length para_sep) with 2. lia.
  - assert (Forall (fun c => (len c <= chunk_size + 1)%Z)
              (if truthy current then chunks ++ [strip current] else chunks))
      as H1.
    { destruct (truthy current); [|exact Hc].
      apply Forall_app. split; [exact Hc|].
      constructor; [|constructor].
      pose proof (strip_length current). unfold len in *. lia. }
    replace (len para >? chunk_size)%Z with false
      by (symmetry; rewrite Z.gtb_ltb; apply Z.ltb_ge; lia).
    split; [exact H1|]. cbn [snd]. lia.
Qed.

Lemma fold_paragraphs_bound chunk_size paras : forall chunks current,
  Forall (fun p => (len p <= chunk_size)%Z) paras ->
  Forall (fun c => (len c <= chunk_size + 1)%Z) chunks ->
  (len current <= chunk_size + 1)%Z ->
  Forall (fun c => (len c <= chunk_size + 1)%Z)
    (fst (fold_left (add_paragraph chunk_size) paras (chunks, current)))
  /\ (len (snd (fold_left (add_paragraph chunk_size) paras
                  (chunks, current))) <= chunk_size + 1)%Z.
Proof.
  induction paras as [|p paras IH]; intros chunks current Hp Hc Hcur;
    cbn [fold_left].
  - by split.
  - inversion Hp as [|? ? Hp1 Hp2]; subst.
    destruct (add_paragraph_bound chunk_size chunks current p Hp1 Hc Hcur)
      as [H1 H2].
    destruct (add_paragraph chunk_size (chunks, current) p)
      as [chunks' current']. by apply IH.
Qed.

(** X12.  When no trimmed paragraph is longer than [chunk_size], no
    chunk of the run without overlap is longer than [chunk_size + 1]. *)
Theorem short_paragraphs_short_chunks (text : str) (chunk_size : Z) :
  Forall (fun p => (Z.of_nat (length p) <= chunk_size)%Z)
    (paragraphs text) ->
  Forall (fun c => (Z.of_nat (length c) <= chunk_size + 1)%Z)
    (chunk_text_smart text chunk_size 0).
Proof.
  intros Hp.
  destruct (ChunkerMore.base_chunks text chunk_size) as [-> _].
  destruct (paragraphs text) as [|p0 ps] eqn:E; [constructor|].
  rewrite <- E in *.
  assert (0 <= chunk_size)%Z as Hsize.
  { rewrite E in Hp. inversion Hp; subst. lia. }
  destruct (fold_paragraphs_bound chunk_size (paragraphs text) [] [] Hp
              (Forall_nil _)) as [H1 H2]; [unfold len; simpl; lia|].
  destruct (fold_left _ _ _) as [chunks0 current]. cbn [fst snd] in *.
  destruct (truthy current); [|exact H1].
  apply Forall_app. split; [exact H1|]. constructor; [|constructor].
  pose proof (strip_length current). unfold len in *. lia.
Qed.

End ChunkerBound.

Module MainProps.
Import PyStr PySlice Store Rag Models Services Main StoreTraceSpec
  ServicesSpec ServicesProps.

Section Endpoints.
Variable generate_embeddings : list str -> option (list Vec).

(** X29.  The upload endpoint stores the document under the
    identifier it was given and extends that history by the notice; with a
    missing or empty identifier it starts a conversation, answers with the
    new token, and that conversation holds the document and the notice
    only. *)
Theorem upload_chooses_conversation
    (token : str) (document : ParsedDocument)
    (conversation_id : option str) (st : ConversationStore) :
  let r := upload generate_embeddings token (Some document)
             conversation_id st in
  exists response,
    fst r = Some response
    /\ upload_metadata response = metadata document
    /\ fields_of (get_or_new (upload_conversation_id response) (snd r))
       = stored_fields generate_embeddings (text document)
    /\ match conversation_id with
       | Some (c :: id) =>
           upload_conversation_id response = c :: id
           /\ history (get_or_new (c :: id) (snd r))
              = history (get_or_new (c :: id) st)
                ++ [upload_notice document]
       | _ =>
           upload_conversation_id response = token
           /\ history (get_or_new token (snd r)) = [upload_notice document]
       end.
Proof.
  intros r. subst r. unfold upload.
  assert (forall key st1,
             upload_document generate_embeddings (Some document) key st1
             = (Some document,
                snd (upload_document generate_embeddings (Some document)
                       key st1))) as Hpair.
  { intros key st1. by rewrite upload_run. }
  assert (forall key st1,
             history (get_or_new key
                        (snd (upload_document generate_embeddings
                                (Some document) key st1)))
             = history (get_or_new key st1) ++ [upload_notice document]
             /\ fields_of (get_or_new key
                             (snd (upload_document generate_embeddings
                                     (Some document) key st1)))
                = stored_fields generate_embeddings (text document))
    as Heff.
  { intros key st1.
    destruct (upload_facts generate_embeddings document key st1)
      as (_ & H1 & H2 & _). by split. }
  assert (forall st0 : ConversationStore,
             history (get_or_new token
                        {| _store := <[token := new_conversation]> (_store st0);
                           _document_uploads := _document_uploads st0;
                           _query_count := _query_count st0 |}) = [])
    as Hfresh.
  { intros st0. unfold get_or_new. simpl. by rewrite lookup_insert_eq. }
  destruct conversation_id as [[|c id]|]; cbn [given truthy text_of];
    unfold start_conversation; cbv beta iota zeta; rewrite Hpair;
    eexists; (split; [reflexivity|]);
    cbn [upload_metadata upload_conversation_id fst snd].
  - destruct (Heff token
                {| _store := <[token := new_conversation]> (_store st);
                   _document_uploads := _document_uploads st;
                   _query_count := _query_count st |}) as [H1 H2].
    repeat split; try done. by rewrite H1, Hfresh.
  - destruct (Heff (c :: id) st) as [H1 H2]. by repeat split.
  - destruct (Heff token
                {| _store := <[token := new_conversation]> (_store st);
                   _document_uploads := _document_uploads st;
                   _query_count := _query_count st |}) as [H1 H2].
    repeat split; try done. by rewrite H1, Hfresh.
Qed.

End Endpoints.

End MainProps.

Module StoreTraceWitness.
Import PyStr Store StoreSpec StoreTraceSpec StoreTrace SampleData.

Lemma other_identifiers_untouched_witness :
  Forall (fun op => op_target op <> s "c3") sample_ops
  /\ _store (run sample_ops empty_store) !! s "c3"
     = _store empty_store !! s "c3".
Proof.
  assert (Forall (fun op => op_target op <> s "c3") sample_ops) as H.
  { repeat (apply Forall_cons; [vm_compute; discriminate|]).
    apply Forall_nil. }
  split; [exact H|].
  exact (other_identifiers_untouched sample_ops empty_store (s "c3") H).
Defined.

Lemma history_is_append_only_witness :
  Forall (not_start (s "c2")) sample_ops
  /\ history (get_or_new (s "c2") (run sample_ops empty_store))
     = history (get_or_new (s "c2") empty_store)
       ++ appended (s "c2") sample_ops.
Proof.
  assert (Forall (not_start (s "c2")) sample_ops) as H.
  { apply Forall_cons; [vm_compute; discriminate|].
    repeat (apply Forall_cons; [exact I|]). apply Forall_nil. }
  split; [exact H|].
  exact (history_is_append_only sample_ops empty_store (s "c2") H).
Defined.

Lemma last_upload_wins_witness :
  Forall (not_start (s "c1")) two_uploads
  /\ fields_of (get_or_new (s "c1") (run two_uploads empty_store))
     = last_stored (s "c1") two_uploads
         (fields_of (get_or_new (s "c1") empty_store)).
Proof.
  assert (Forall (not_start (s "c1")) two_uploads) as H.
  { repeat (apply Forall_cons; [exact I|]). apply Forall_nil. }
  split; [exact H|].
  exact (last_upload_wins two_uploads empty_store (s "c1") H).
Defined.

End StoreTraceWitness.

Module EngineMoreWitness.
Import PyStr Embeddings EngineSpec EngineMore SampleData.

Lemma find_similar_chunks_threshold_witness :
  (exists row, In row unit_rows /\ (3 # 10 <= plain_dot row [1%Q; 0%Q])%Q)
  /\ Forall (fun e => (3 # 10 <= snd e)%Q)
       (find_similar_chunks plain_dot [1%Q; 0%Q] (Some unit_rows)
          [s "a"; s "b"] 2 (3 # 10)%Q).
Proof.
  assert (exists row, In row unit_rows
                      /\ (3 # 10 <= plain_dot row [1%Q; 0%Q])%Q) as H.
  { exists [1%Q; 0%Q]. split; [simpl; auto|]. vm_compute. discriminate. }
  split; [exact H|].
  exact (find_similar_chunks_threshold plain_dot [1%Q; 0%Q] unit_rows
           [s "a"; s "b"] 2 (3 # 10)%Q H).
Defined.


End EngineMoreWitness.

Module KeywordMoreWitness.
Import PyStr Store StoreSpec Rag KeywordSpec KeywordMore SampleData.

Lemma blank_question_not_found_witness :
  (forall c, In c (s "  ") -> isspace c = true)
  /\ _fallback_keyword_search failing_chat (s "  ") capitals [] None
     = (not_found_answer, []).
Proof.
  assert (forall c, In c (s "  ") -> isspace c = true) as H.
  { intros c [<-|[<-|[]]]; reflexivity. }
  split; [exact H|].
  exact (blank_question_not_found failing_chat (s "  ") capitals [] None H).
Defined.

Lemma no_document_without_chunks_witness :
  _store empty_store !! s "c1" = None
  /\ chat_with_rag EngineSpec.plain_dot fixed_format unit_embedder
       failing_chat (s "c1") (s "capital?") empty_store
     = (no_document_answer, []).
Proof.
  assert (_store empty_store !! s "c1" = None) as H
    by (vm_compute; reflexivity).
  split; [exact H|].
  exact (proj1 (no_document_without_chunks EngineSpec.plain_dot
                  unit_embedder fixed_format failing_chat (s "c1")
                  (s "capital?") empty_store unit_embedder []) H).
Defined.

End KeywordMoreWitness.

Module GroqWitness.
Import PyStr Store Rag Groq GroqProps SampleData.


End GroqWitness.

Module ServicesWitness.
Import PyStr PyStrMore Store StoreSpec StoreTraceSpec Rag KeywordSpec Models
  Services ServicesSpec ServicesProps SampleData.

Lemma extract_bullets_spec_witness :
  List.filter is_bullet (splitlines bullet_answer) <> []
  /\ _extract_bullets bullet_answer
     = firstn 5 (map bullet_text
                   (List.filter is_bullet (splitlines bullet_answer))).
Proof.
  assert (List.filter is_bullet (splitlines bullet_answer) <> []) as H
    by (vm_compute; discriminate).
  split; [exact H|].
  exact (proj1 (proj2 (proj2 (extract_bullets_spec bullet_answer)) H)).
Defined.

Lemma chat_turn_effect_witness :
  s "c2" <> s "c1"
  /\ _store (snd (chat_with_rag_context EngineSpec.plain_dot fixed_format
                    unit_embedder failing_chat sample_request
                    sample_store)) !! s "c2"
     = _store sample_store !! s "c2".
Proof.
  assert (s "c2" <> s "c1") as H by (vm_compute; discriminate).
  split; [exact H|].
  exact (proj1 (proj2 (proj2 (chat_turn_effect EngineSpec.plain_dot
           fixed_format unit_embedder failing_chat sample_request
           sample_store))) (s "c2") H).
Defined.

Lemma upload_effect_witness :
  s "c2" <> s "c1"
  /\ _store (snd (upload_document unit_embedder (Some sample_document)
                    (s "c1") empty_store)) !! s "c2"
     = _store empty_store !! s "c2".
Proof.
  assert (s "c2" <> s "c1") as H by (vm_compute; discriminate).
  split; [exact H|].
  exact (proj1 (proj2 (proj2 (proj2 (upload_effect unit_embedder
           sample_document (s "c1") empty_store)))) (s "c2") H).
Defined.

Lemma failed_upload_effect_witness :
  s "c2" <> s "c1"
  /\ _store (snd (upload_document unit_embedder None (s "c1")
                    empty_store)) !! s "c2"
     = _store empty_store !! s "c2".
Proof.
  assert (s "c2" <> s "c1") as H by (vm_compute; discriminate).
  split; [exact H|].
  exact (proj1 (proj2 (proj2 (proj2 (failed_upload_effect unit_embedder
           (s "c1") empty_store)))) (s "c2") H).
Defined.

End ServicesWitness.

Module RagMoreWitness.
Import PyStr PySlice Store StoreSpec Rag KeywordSpec KeywordProps Chunker
  RagMore ChunkerBound SampleData.

Lemma keyword_best_scores_one_witness :
  (exists chunk, In chunk capitals
                 /\ 0 < lexical_score (s "capital of France") chunk)
  /\ exists chunk relevance rest,
       snd (_fallback_keyword_search failing_chat (s "capital of France")
              capitals [] None) = (chunk, relevance) :: rest
       /\ (relevance == 1)%Q
       /\ In chunk capitals
       /\ forall other, In other capitals ->
            lexical_score (s "capital of France") other
            <= lexical_score (s "capital of France") chunk.
Proof.
  split; [exact capitals_matched|].
  exact (keyword_best_scores_one failing_chat (s "capital of France")
           capitals [] None capitals_matched).
Defined.

Lemma generation_success_passes_answer_witness :
  fst (get_document_chunks (s "c1") sample_store) <> []
  /\ fst (get_chunk_embeddings (s "c1") sample_store) <> None
  /\ query_embedding_of unit_embedder (s "capital?") = Some [1%Q]
  /\ chat_with_rag EngineSpec.plain_dot fixed_format unit_embedder
       echo_chat (s "c1") (s "capital?") sample_store
     = (s "Paris.", [(s "Paris is the capital of France.", 1%Q)]).
Proof.
  assert (fst (get_document_chunks (s "c1") sample_store) <> []) as H1
    by (vm_compute; discriminate).
  assert (fst (get_chunk_embeddings (s "c1") sample_store) <> None) as H2
    by (vm_compute; discriminate).
  assert (query_embedding_of unit_embedder (s "capital?") = Some [1%Q])
    as H3 by reflexivity.
  split; [exact H1|]. split; [exact H2|]. split; [exact H3|].
  rewrite (proj1 (generation_success_passes_answer EngineSpec.plain_dot
                    fixed_format unit_embedder echo_chat (s "c1")
                    (s "capital?") sample_store (s "Paris."))
             [1%Q] H1 H2 H3).
  - vm_compute. reflexivity.
  - vm_compute. discriminate.
  - reflexivity.
Defined.

Lemma short_paragraphs_short_chunks_witness :
  Forall (fun p => (Z.of_nat (length p) <= 40)%Z)
    (paragraphs (s "Paris is the capital of France."))
  /\ Forall (fun c => (Z.of_nat (length c) <= 40 + 1)%Z)
       (chunk_text_smart (s "Paris is the capital of France.") 40 0).
Proof.
  assert (Forall (fun p => (Z.of_nat (length p) <= 40)%Z)
            (paragraphs (s "Paris is the capital of France."))) as H.
  { assert (paragraphs (s "Paris is the capital of France.")
            = [s "Paris is the capital of France."]) as ->
      by (vm_compute; reflexivity).
    apply Forall_cons; [vm_compute; discriminate|apply Forall_nil]. }
  split; [exact H|].
  exact (short_paragraphs_short_chunks _ 40 H).
Defined.

End RagMoreWitness.
